(** * Beacon PDF chatbot: a shallow embedding of the chunking, retrieval and
      chat services, with the properties the specification states of them.

    The development follows the three service modules of the backend:
    [pdf_service.py] (normaliser, sentence splitter, chunker, file-name
    sanitiser), [rag_service.py] (indexing, search, context assembly) and
    [chat_service.py] (mode selection, system prompt, chat turn).

    A Python [str] is modelled as a list of 8-bit characters, read as the code
    points U+0000 to U+00FF; integers are [Z]; a [dict] used as a map is a
    [gmap]; a [float] that is only passed on is a rational; calls to the
    vector store, the language model and the clock are requests answered by
    an environment and recorded in a trace. *)

From Stdlib Require Import ZArith Lia Ascii String List Bool DecimalString.
From Stdlib Require QArith_base.
From stdpp Require Import base tactics option list countable gmap strings.

Local Open Scope Z_scope.

(** ** Text: Python strings and the string methods the services call *)

Module Text.

Definition str := list ascii.

(** A string literal of the source. *)
Definition lit (s : string) : str := list_ascii_of_string s.

Definition code (c : ascii) : N := N_of_ascii c.

Definition nl : ascii := ascii_of_N 10.

(** [str.isspace] for one character and the class [\s] of [re] on a [str]
    pattern: TAB, LF, VT, FF, CR, the separators U+001C to U+001F, SPACE,
    NEL (U+0085) and NBSP (U+00A0). *)
Definition is_space (c : ascii) : bool :=
  let n := code c in
  ((9 <=? n) && (n <=? 13) || (28 <=? n) && (n <=? 32)
   || (n =? 133) || (n =? 160))%N.

(** The class [\d]: the decimal digits; below U+0100 these are 0 to 9. *)
Definition is_digit (c : ascii) : bool :=
  let n := code c in ((48 <=? n) && (n <=? 57))%N.

Definition is_nl (c : ascii) : bool := Ascii.eqb c nl.

(** [str.lower] on one character: A to Z, and the capital letters of
    Latin-1 (U+00C0 to U+00DE without the multiplication sign U+00D7). *)
Definition lower_char (c : ascii) : ascii :=
  let n := code c in
  if ((65 <=? n) && (n <=? 90)
      || (192 <=? n) && (n <=? 222) && negb (n =? 215))%N
  then ascii_of_N (n + 32) else c.

Definition lower (s : str) : str := map lower_char s.

Fixpoint lstrip (s : str) : str :=
  match s with
  | c :: s' => if is_space c then lstrip s' else s
  | [] => []
  end.

Definition rstrip (s : str) : str := reverse (lstrip (reverse s)).

(** [s.strip()] *)
Definition strip (s : str) : str := rstrip (lstrip s).

Fixpoint startswith (p s : str) : bool :=
  match p, s with
  | [], _ => true
  | a :: p', c :: s' => Ascii.eqb a c && startswith p' s'
  | _ :: _, [] => false
  end.

(** [s.endswith(p)] *)
Definition endswith (p s : str) : bool := startswith (reverse p) (reverse s).

(** [p in s] *)
Fixpoint contains (p s : str) : bool :=
  startswith p s || match s with
                    | _ :: s' => contains p s'
                    | [] => false
                    end.

(** [sep.join(parts)] *)
Fixpoint join (sep : str) (parts : list str) : str :=
  match parts with
  | [] => []
  | [p] => p
  | p :: rest => p ++ sep ++ join sep rest
  end.

(** [s.replace(old, new)] for a non-empty [old]: the occurrences of [old]
    are replaced from left to right, without overlap. [skip] counts the
    characters of the occurrence being replaced that are still ahead. *)
Fixpoint replace_from (old new : str) (skip : nat) (s : str) : str :=
  match s with
  | [] => []
  | c :: s' =>
      match skip with
      | S k => replace_from old new k s'
      | O => if startswith old s
             then new ++ replace_from old new (Nat.pred (length old)) s'
             else c :: replace_from old new 0 s'
      end
  end.

Definition replace (old new : str) (s : str) : str := replace_from old new 0 s.

(** [s[:n]] for [n >= 0] *)
Definition slice_to (n : nat) (s : str) : str := take n s.

(** [s.rfind(c) + 1] for a one-character [c]: the index after the last
    occurrence, 0 when there is none. *)
Fixpoint after_last (c : ascii) (s : str) : str :=
  match s with
  | [] => []
  | a :: s' => if contains [c] s' then after_last c s'
               else if Ascii.eqb a c then s' else s
  end.

(** [s.split(c)] for a one-character separator; [cur] is the piece being
    read. *)
Fixpoint split_on (c : ascii) (cur : str) (s : str) : list str :=
  match s with
  | [] => [cur]
  | a :: s' => if Ascii.eqb a c then cur :: split_on c [] s'
               else split_on c (cur ++ [a]) s'
  end.

(** [str(n)] and the [{n}] of an f-string, for an integer *)
Definition of_Z (n : Z) : str := lit (NilZero.string_of_int (Z.to_int n)).

End Text.

(** ** Regex: the fragment of [re] the services use

    A pattern is a sequence of atoms: a character class under a greedy
    quantifier, the anchors [^] and [$] under [re.MULTILINE], and a
    one-character look-behind. Matching backtracks as [re] does: a greedy
    quantifier first takes the longest run and gives characters back one by
    one until the rest of the pattern matches. *)

Module Regex.
Import Text.

Inductive quant := One | Star | Plus.

Inductive atom :=
| Cls (p : ascii -> bool) (q : quant)
| Bol
| Eol
| Behind (p : ascii -> bool).

Definition regex := list atom.

(** [^] under MULTILINE: at the start of the text or right after a newline. *)
Definition at_bol (prev : option ascii) : bool :=
  match prev with
  | None => true
  | Some c => is_nl c
  end.

(** [$] under MULTILINE: at the end of the text or right before a newline. *)
Definition at_eol (s : str) : bool :=
  match s with
  | [] => true
  | c :: _ => is_nl c
  end.

Section Greedy.
Variable p : ascii -> bool.
(** [k] matches the rest of the pattern; it is given the character before
    the position and the text from the position on, and answers with the
    number of characters it consumed. *)
Variable k : option ascii -> str -> option nat.

Fixpoint star (prev : option ascii) (s : str) : option nat :=
  match s with
  | c :: s' =>
      if p c then
        match star (Some c) s' with
        | Some n => Some (S n)
        | None => k prev s
        end
      else k prev s
  | [] => k prev s
  end.

Definition one (prev : option ascii) (s : str) : option nat :=
  match s with
  | c :: s' => if p c then S <$> k (Some c) s' else None
  | [] => None
  end.

Definition plus (prev : option ascii) (s : str) : option nat :=
  match s with
  | c :: s' => if p c then S <$> star (Some c) s' else None
  | [] => None
  end.
End Greedy.

(** [match_here re prev s]: the length of the match of [re] that starts at
    the beginning of [s], where [prev] is the character before it. *)
Fixpoint match_here (re : regex) : option ascii -> str -> option nat :=
  match re with
  | [] => fun _ _ => Some O
  | Cls p One :: re' => one p (match_here re')
  | Cls p Star :: re' => star p (match_here re')
  | Cls p Plus :: re' => plus p (match_here re')
  | Bol :: re' => fun prev s => if at_bol prev then match_here re' prev s else None
  | Eol :: re' => fun prev s => if at_eol s then match_here re' prev s else None
  | Behind p :: re' =>
      fun prev s =>
        match prev with
        | Some c => if p c then match_here re' prev s else None
        | None => None
        end
  end.

(** [re.sub(re, repl, s)], scanning from left to right. [skip] counts the
    characters of the current match that are still ahead. An empty match is
    replaced and the scan moves on by one character. *)
Fixpoint sub_from (re : regex) (repl : str) (skip : nat)
    (prev : option ascii) (s : str) : str :=
  match s with
  | [] =>
      match skip, match_here re prev [] with
      | O, Some _ => repl
      | _, _ => []
      end
  | c :: s' =>
      match skip with
      | S k => sub_from re repl k (Some c) s'
      | O =>
          match match_here re prev s with
          | Some (S n) => repl ++ sub_from re repl n (Some c) s'
          | Some O => repl ++ c :: sub_from re repl 0 (Some c) s'
          | None => c :: sub_from re repl 0 (Some c) s'
          end
      end
  end.

Definition sub (re : regex) (repl : str) (s : str) : str :=
  sub_from re repl 0 None s.

(** [re.split(re, s)]: the pieces between the matches. [cur] is the piece
    being read. *)
Fixpoint split_from (re : regex) (skip : nat) (prev : option ascii)
    (cur : str) (s : str) : list str :=
  match s with
  | [] =>
      match skip, match_here re prev [] with
      | O, Some _ => [cur; []]
      | _, _ => [cur]
      end
  | c :: s' =>
      match skip with
      | S k => split_from re k (Some c) cur s'
      | O =>
          match match_here re prev s with
          | Some (S n) => cur :: split_from re n (Some c) [] s'
          | Some O => cur :: split_from re 0 (Some c) [c] s'
          | None => split_from re 0 (Some c) (cur ++ [c]) s'
          end
      end
  end.

Definition split (re : regex) (s : str) : list str :=
  split_from re 0 None [] s.

End Regex.

(** ** pdf_service.py *)

Module PDFService.
Import Text Regex.

(** [class PDFChunk]; [metadata] is the dict the chunker fills in. *)
Record PDFChunk := {
  content : str;
  page_number : Z;
  chunk_index : Z;
  metadata : gmap string Z
}.

(** The part of [class PDFService] the text pipeline reads: the upload
    directory, as the components of its path, and the tokenizer, which is
    [None] when [tiktoken.get_encoding] raised in [__init__]. The encoder
    is taken to return a token list for every text. *)
Record PDFService := {
  upload_dir : list str;
  tokenizer : option (str -> list Z)
}.

(** [count_tokens] *)
Definition count_tokens (self : PDFService) (text : str) : Z :=
  match tokenizer self with
  | Some encode => Z.of_nat (length (encode text))
  | None => Z.of_nat (length text) / 4
  end.

(** The patterns of [_clean_text] and [_split_into_sentences]. *)
Definition re_spaces : regex := [Cls is_space Plus].                  (* \s+ *)
Definition re_page_number : regex :=                                  (* ^\s*\d+\s*$ *)
  [Bol; Cls is_space Star; Cls is_digit Plus; Cls is_space Star; Eol].
Definition re_line_breaks : regex :=                                  (* \n\s*\n\s*\n+ *)
  [Cls is_nl One; Cls is_space Star; Cls is_nl One; Cls is_space Star;
   Cls is_nl Plus].
Definition is_terminal (c : ascii) : bool :=                          (* [.!?] *)
  existsb (Ascii.eqb c) (lit ".!?").
Definition re_sentence_end : regex :=                                 (* (?<=[.!?])\s+ *)
  [Behind is_terminal; Cls is_space Plus].

(** [_clean_text] *)
Definition _clean_text (text : str) : str :=
  let text := sub re_spaces (lit " ") text in
  let text := sub re_page_number [] text in
  let text := replace (lit "|") (lit "I") text in
  let text := replace (lit "0") (lit "O") text in
  let text := sub re_line_breaks [nl; nl] text in
  strip text.

(** [_split_into_sentences] *)
Definition _split_into_sentences (text : str) : list str :=
  let sentences := split re_sentence_end text in
  map strip (filter (fun s => strip s <> []) sentences).

(** The local variables of the loop of [_create_chunks]; [next_index] is
    its [chunk_index]. *)
Record chunker := {
  chunks : list PDFChunk;
  current_chunk : list str;
  current_tokens : Z;
  next_index : Z
}.

(** [sum(...)] over integers *)
Definition sum (l : list Z) : Z := foldl Z.add 0 l.

(** [PDFChunk(content=' '.join(current_chunk), ...)] *)
Definition emit (page_number : Z) (st : chunker) : PDFChunk :=
  {| content := join (lit " ") (current_chunk st);
     page_number := page_number;
     chunk_index := next_index st;
     metadata := <["tokens"%string := current_tokens st]>
                 (<["start_sentence"%string := 0]>
                 (<["end_sentence"%string := Z.of_nat (length (current_chunk st))]> ∅)) |}.

(** [current_chunk[-2:] if len(current_chunk) >= 2 else current_chunk] *)
Definition overlap_sentences (current_chunk : list str) : list str :=
  if (2 <=? length current_chunk)%nat
  then drop (length current_chunk - 2) current_chunk
  else current_chunk.

(** One turn of [for sentence in sentences]. *)
Definition feed (self : PDFService) (page_number max_tokens : Z)
    (st : chunker) (sentence : str) : chunker :=
  let sentence_tokens := count_tokens self sentence in
  if (current_tokens st + sentence_tokens >? max_tokens)
     && negb (bool_decide (current_chunk st = []))
  then
    let current_chunk' := overlap_sentences (current_chunk st) ++ [sentence] in
    {| chunks := chunks st ++ [emit page_number st];
       current_chunk := current_chunk';
       current_tokens := sum (map (count_tokens self) current_chunk');
       next_index := next_index st + 1 |}
  else
    {| chunks := chunks st;
       current_chunk := current_chunk st ++ [sentence];
       current_tokens := current_tokens st + sentence_tokens;
       next_index := next_index st |}.

Definition start : chunker :=
  {| chunks := []; current_chunk := []; current_tokens := 0; next_index := 0 |}.

(** [_create_chunks] *)
Definition _create_chunks (self : PDFService) (text : str)
    (page_number max_tokens : Z) : list PDFChunk :=
  if bool_decide (strip text = []) then []
  else
    let st := foldl (feed self page_number max_tokens) start
                (_split_into_sentences text) in
    if bool_decide (current_chunk st = []) then chunks st
    else chunks st ++ [emit page_number st].

(** [os.path.basename] of [posixpath] *)
Definition basename (p : str) : str := after_last "/" p.

Definition dangerous_chars : list str :=
  map lit ["<"; ">"; ":"; String (ascii_of_N 34) EmptyString; "|"; "?"; "*"; "\"; "/"]%string.

(** [_sanitize_filename] *)
Definition _sanitize_filename (filename : str) : str :=
  let filename := basename filename in
  let filename :=
    foldl (fun name char => replace char (lit "_") name) filename dangerous_chars in
  if negb (endswith (lit ".pdf") (lower filename))
  then filename ++ lit ".pdf"
  else filename.

(** [Path(dir) / name] of [pathlib] on POSIX, with paths as lists of
    components: an absolute [name] replaces [dir]; empty components and [.]
    are dropped. *)
Definition path_div (dir : list str) (name : str) : list str :=
  let parts := filter (fun p => p <> [] /\ p <> lit ".") (split_on "/" [] name) in
  if startswith (lit "/") name then lit "/" :: parts else dir ++ parts.

(** How [open(file_path, 'wb')] and the [write] that follows end: the file
    holds the content; or [open] raises and nothing is changed; or [write]
    raises after [open] has emptied the file, which is left with what was
    written until then. *)
Inductive written :=
| Stored
| Refused
| Torn (so_far : list Byte.byte).

(** The file system decides how a write ends, from the files it holds, the
    path and the content. *)
Definition Disk : Type :=
  gmap (list str) (list Byte.byte) -> list str -> list Byte.byte -> written.

(** [save_pdf], on a file system that maps a path to the bytes stored
    there. It returns the path written, or [None] for the [ValueError] it
    raises when the file cannot be written. *)
Definition save_pdf (disk : Disk) (self : PDFService)
    (fs : gmap (list str) (list Byte.byte))
    (file_content : list Byte.byte) (filename : str)
    : option (list str) * gmap (list str) (list Byte.byte) :=
  let safe_filename := _sanitize_filename filename in
  let file_path := path_div (upload_dir self) safe_filename in
  match disk fs file_path file_content with
  | Stored => (Some file_path, <[file_path := file_content]> fs)
  | Refused => (None, fs)
  | Torn so_far => (None, <[file_path := so_far]> fs)
  end.

End PDFService.

(** ** The outside world: vector store, language model, clock

    The services call the Weaviate client, the OpenAI client and
    [datetime.now]. Each call is a request; the environment answers it,
    possibly depending on everything requested before, and the request is
    appended to the trace. An answer of [None] (or [false]) is a raised
    exception. *)

Module World.
Import Text.

(** The object [create_embeddings] inserts for a chunk. [d_uploaded_at] is
    the reading of the clock; its rendering by [isoformat] is left out. *)
Record DataObject := {
  d_content : str;
  d_page_number : Z;
  d_chunk_index : Z;
  d_filename : str;
  d_uploaded_at : Z;
  d_tokens : Z
}.

(** The properties of an object returned by [near_text]. The distance it
    also carries is only turned into a score that is logged. *)
Record StoredObject := {
  o_content : str;
  o_page_number : Z;
  o_chunk_index : Z;
  o_filename : str;
  o_tokens : Z
}.

(** A message of the chat completion API: [{"role": ..., "content": ...}]. *)
Record Message := { m_role : str; m_content : str }.

(** [response.choices[i].message.content] and
    [response.usage.total_tokens], where the usage can be missing. *)
Record Completion := {
  choices : list (option str);
  usage : option Z
}.

Inductive request :=
| CollectionsGet (class_name : str)
| DeleteMany (filename : str)
| InsertMany (batch : list DataObject)
| NearText (query : str) (limit : Z)
| CompletionsCreate (model : str) (messages : list Message) (max_tokens : Z)
    (temperature : QArith_base.Q)
| Now.

Definition trace := list request.

Record Env := {
  collections_get : trace -> str -> bool;
  delete_many : trace -> str -> option Z;
  insert_many : trace -> list DataObject -> bool;
  near_text : trace -> str -> Z -> option (list StoredObject);
  completions_create :
    trace -> str -> list Message -> Z -> QArith_base.Q -> option Completion;
  now : trace -> Z
}.

(** Computations that talk to the world. *)
Definition M (A : Type) : Type := trace -> A * trace.

Definition ret {A} (a : A) : M A := fun t => (a, t).

Definition bind {A B} (m : M A) (k : A -> M B) : M B :=
  fun t => let '(a, t') := m t in k a t'.

Definition call {A} (req : request) (answer : trace -> A) : M A :=
  fun t => (answer t, t ++ [req]).

(** [for x in l: ...], each turn in the world. *)
Fixpoint for_each {A B} (f : A -> M B) (l : list A) : M (list B) :=
  match l with
  | [] => ret []
  | x :: l' => bind (f x) (fun y => bind (for_each f l') (fun ys => ret (y :: ys)))
  end.

End World.

Declare Scope world_scope.
Delimit Scope world_scope with world.
Notation "x <- m ;; k" := (World.bind m (fun x => k))
  (at level 100, m at next level, right associativity) : world_scope.
Notation "m ;;; k" := (World.bind m (fun _ => k))
  (at level 100, right associativity) : world_scope.

(** ** rag_service.py *)

Module RAGService.
Import Text World PDFService.
Local Open Scope world_scope.

Record RAGService := {
  class_name : str;
  embedding_model : str
}.

(** An entry of the list [search] returns. The score, which only the log
    reads, is left out. *)
Record SearchResult := {
  r_content : str;
  r_page_number : Z;
  r_chunk_index : Z;
  r_filename : str;
  r_tokens : Z
}.

Section Service.
Variable env : Env.
Variable self : RAGService.

(** [_clear_existing_data]: any exception is logged and swallowed. *)
Definition _clear_existing_data (filename : str) : M unit :=
  ok <- call (CollectionsGet (class_name self))
             (fun t => collections_get env t (class_name self)) ;;
  if ok then
    _ <- call (DeleteMany filename) (fun t => delete_many env t filename) ;;
    ret tt
  else ret tt.

(** [range(0, len(chunks), batch_size)] with [chunks[i:i + batch_size]] *)
Fixpoint batches {A} (fuel : nat) (batch_size : nat) (l : list A) : list (list A) :=
  match fuel, l with
  | _, [] => []
  | O, _ => []
  | S fuel', _ => take batch_size l :: batches fuel' batch_size (drop batch_size l)
  end.

Definition data_object (filename : str) (chunk : PDFChunk) : M DataObject :=
  uploaded_at <- call Now (now env) ;;
  ret {| d_content := content chunk;
         d_page_number := page_number chunk;
         d_chunk_index := chunk_index chunk;
         d_filename := filename;
         d_uploaded_at := uploaded_at;
         d_tokens := default 0 (metadata chunk !! "tokens"%string) |}.

(** The loop over the batches; it stops at the first insert that raises. *)
Fixpoint insert_batches (filename : str) (bs : list (list PDFChunk)) : M bool :=
  match bs with
  | [] => ret true
  | batch_chunks :: bs' =>
      batch_data <- for_each (data_object filename) batch_chunks ;;
      ok <- call (InsertMany batch_data) (fun t => insert_many env t batch_data) ;;
      if ok then insert_batches filename bs' else ret false
  end.

(** [create_embeddings] *)
Definition create_embeddings (chunks : list PDFChunk) (filename : str) : M bool :=
  if bool_decide (chunks = []) then ret false
  else
    _clear_existing_data filename ;;;
    (ok <- call (CollectionsGet (class_name self))
                (fun t => collections_get env t (class_name self)) ;;
     if ok then insert_batches filename (batches (length chunks) 100 chunks)
     else ret false).

(** [l[:k]] for an integer [k] *)
Definition slice_to_Z {A} (k : Z) (l : list A) : list A :=
  if 0 <=? k then take (Z.to_nat k) l
  else take (length l - Z.to_nat (- k)) l.

Definition to_result (o : StoredObject) : SearchResult :=
  {| r_content := o_content o;
     r_page_number := o_page_number o;
     r_chunk_index := o_chunk_index o;
     r_filename := o_filename o;
     r_tokens := o_tokens o |}.

(** [search]; [filename] is [None] or a string, and counts when it is a
    non-empty string. Any exception gives the empty list. *)
Definition search (query : str) (top_k : Z) (filename : option str)
    : M (list SearchResult) :=
  ok <- call (CollectionsGet (class_name self))
             (fun t => collections_get env t (class_name self)) ;;
  if ok then
    response <- call (NearText query (top_k * 3))
                     (fun t => near_text env t query (top_k * 3)) ;;
    match response with
    | Some objects =>
        let all_results := map to_result objects in
        match filename with
        | Some (c :: f) =>
            ret (slice_to_Z top_k
                   (filter (fun r => r_filename r = c :: f) all_results))
        | _ => ret (slice_to_Z top_k all_results)
        end
    | None => ret []
    end
  else ret [].

(** [f"[Page {result['page_number']}] {result['content']}"] *)
Definition context_part (result : SearchResult) : str :=
  lit "[Page " ++ of_Z (r_page_number result) ++ lit "] " ++ r_content result.

(** The loop of [get_relevant_context], with its [break]. Every result
    has the key ['tokens'], so [result.get('tokens', ...)] is that
    entry. *)
Fixpoint gather (max_tokens : Z) (results : list SearchResult)
    (context_parts : list str) (current_tokens : Z) : list str * Z :=
  match results with
  | [] => (context_parts, current_tokens)
  | result :: rest =>
      let chunk_tokens := r_tokens result in
      if current_tokens + chunk_tokens >? max_tokens
      then (context_parts, current_tokens)
      else gather max_tokens rest
             (context_parts ++ [context_part result])
             (current_tokens + chunk_tokens)
  end.

(** [get_relevant_context] *)
Definition get_relevant_context (query : str) (max_tokens : Z)
    (filename : option str) : M str :=
  results <- search query 20 filename ;;
  if bool_decide (results = []) then ret []
  else
    let '(context_parts, _) := gather max_tokens results [] 0 in
    ret (join [nl; nl] context_parts).

End Service.
End RAGService.

(** ** chat_service.py *)

Module ChatService.
Import Text World PDFService RAGService.
Local Open Scope world_scope.

(** [models.ChatMessage]; the timestamp defaults to [datetime.now()]. *)
Record ChatMessage := {
  role : str;
  content : str;
  timestamp : Z
}.

(** [class ChatService]. The temperature is a [float] that is handed to
    the language model as it is. *)
Record ChatService := {
  model : str;
  max_tokens : Z;
  temperature : QArith_base.Q;
  rag_service : RAGService.RAGService;
  pdf_context : option str;
  use_rag : bool;
  current_filename : option str
}.

(** The dict [chat] returns. *)
Record ChatResult := {
  response : str;
  conversation_history : list ChatMessage;
  tokens_used : Z;
  rag_used : bool
}.

(** How a call of [chat] ends: with [ValueError] raised, or with a result. *)
Inductive outcome :=
| Raised
| Returned (result : ChatResult).

(** What the caller of [chat] holds afterwards: the outcome, and the list
    it passed as [conversation_history], which [chat] may have extended in
    place. *)
Record after_chat := {
  result : outcome;
  history_object : option (list ChatMessage)
}.

Definition base_prompt : str :=
  join [nl]
    [ lit "You are a helpful AI assistant that can answer questions about PDF documents. ";
      lit "        You should provide accurate, helpful, and concise responses based on the information available in the PDF.";
      lit "        ";
      lit "        Guidelines:";
      lit "        - Only answer questions based on the information provided in the PDF";
      lit "        - If the information is not available in the PDF, clearly state that";
      lit "        - Be helpful and conversational in your responses";
      lit "        - Provide specific references when possible (mention page numbers if available)";
      lit "        - Keep responses concise but informative";
      lit "        - If you're referencing specific content, cite the page number";
      lit "        " ].

Definition preview_notice : str :=
  [nl; nl] ++ lit "[Note: This is a preview of the PDF content. The full document contains more information.]".

(** Truth value of an [Optional[str]] and of an [Optional[List]]. *)
Definition truthy {A} (o : option (list A)) : bool :=
  match o with
  | Some (_ :: _) => true
  | _ => false
  end.

(** [o or []] *)
Definition or_empty {A} (o : option (list A)) : list A := default [] o.

(** [l[-8:]] *)
Definition last_8 {A} (l : list A) : list A := drop (length l - 8) l.

(** [create_system_prompt] *)
Definition create_system_prompt (self : ChatService) (relevant_context : str) : str :=
  if negb (bool_decide (relevant_context = [])) then
    base_prompt ++ [nl; nl] ++ lit "Relevant PDF Content:" ++ [nl] ++ relevant_context
  else if truthy (pdf_context self) && negb (use_rag self) then
    let context_preview := slice_to 4000 (or_empty (pdf_context self)) in
    let base_prompt := base_prompt ++ [nl; nl] ++ lit "PDF Content:" ++ [nl] ++ context_preview in
    if (4000 <? length (or_empty (pdf_context self)))%nat
    then base_prompt ++ preview_notice
    else base_prompt
  else base_prompt.

Section Service.
Variable env : Env.

(** [set_pdf_context]; [chunks] defaults to [None]. *)
Definition set_pdf_context (self : ChatService) (pdf_text : str)
    (chunks : option (list PDFChunk)) (filename : str) : M ChatService :=
  let self := {| model := model self; max_tokens := max_tokens self;
                 temperature := temperature self;
                 rag_service := rag_service self;
                 pdf_context := Some pdf_text;
                 use_rag := use_rag self;
                 current_filename := Some filename |} in
  let with_rag (b : bool) :=
    {| model := model self; max_tokens := max_tokens self;
       temperature := temperature self;
       rag_service := rag_service self;
       pdf_context := pdf_context self;
       use_rag := b;
       current_filename := current_filename self |} in
  if truthy chunks && (5 <? length (or_empty chunks))%nat then
    success <- create_embeddings env (rag_service self) (or_empty chunks) filename ;;
    if success then ret (with_rag true) else ret (with_rag false)
  else ret (with_rag false).

(** The context [chat] hands to [create_system_prompt]. *)
Definition relevant_context_of (self : ChatService) (message : str) : M str :=
  if use_rag self then
    get_relevant_context env (rag_service self) message 5000 (current_filename self)
  else if truthy (pdf_context self) then
    ret (slice_to 5000 (or_empty (pdf_context self)))
  else ret [].

(** The [messages] list [chat] sends to the language model. *)
Definition build_messages (system_prompt : str) (message : str)
    (conversation_history : option (list ChatMessage)) : list Message :=
  [{| m_role := lit "system"; m_content := system_prompt |}]
  ++ (if truthy conversation_history
      then map (fun msg => {| m_role := role msg; m_content := content msg |})
               (last_8 (or_empty conversation_history))
      else [])
  ++ [{| m_role := lit "user"; m_content := message |}].

(** The end of [chat], from the answer of the language model on.
    [response.choices[0]] raises on an empty list, and
    [ChatMessage(content=None)] fails validation, after the default of its
    timestamp has read the clock. The two new turns are built first and
    then appended by one [extend], to the caller's list when it is
    non-empty and to a fresh list otherwise. *)
Definition conclude (self : ChatService) (message : str)
    (conversation_history : option (list ChatMessage))
    (response : option Completion) : M after_chat :=
  let raised := {| result := Raised; history_object := conversation_history |} in
  match response with
  | None => ret raised
  | Some response =>
      match choices response with
      | [] => ret raised
      | ai_response :: _ =>
          let tokens_used := default 0 (usage response) in
          user_time <- call Now (now env) ;;
          assistant_time <- call Now (now env) ;;
          match ai_response with
          | None => ret raised
          | Some ai_response =>
              let new_turns :=
                [ {| role := lit "user"; content := message; timestamp := user_time |};
                  {| role := lit "assistant"; content := ai_response;
                     timestamp := assistant_time |} ] in
              let updated_history := or_empty conversation_history ++ new_turns in
              ret {| result := Returned
                       {| response := ai_response;
                          conversation_history := updated_history;
                          tokens_used := tokens_used;
                          rag_used := use_rag self |};
                     history_object :=
                       if truthy conversation_history
                       then Some updated_history
                       else conversation_history |}
          end
      end
  end.

(** [chat]. Everything is inside one [try]; whatever is raised becomes a
    [ValueError]. *)
Definition chat (self : ChatService) (message : str)
    (conversation_history : option (list ChatMessage)) : M after_chat :=
  relevant_context <- relevant_context_of self message ;;
  let system_prompt := create_system_prompt self relevant_context in
  let messages := build_messages system_prompt message conversation_history in
  response <- call (CompletionsCreate (model self) messages (max_tokens self)
                      (temperature self))
                   (fun t => completions_create env t (model self) messages
                               (max_tokens self) (temperature self)) ;;
  conclude self message conversation_history response.

(** A document's active lifetime: the chat turns that follow its upload.
    [chat] assigns no attribute of the service, so each turn runs on the
    same service. *)
Fixpoint chat_turns (self : ChatService)
    (turns : list (str * option (list ChatMessage))) : M (list after_chat) :=
  match turns with
  | [] => ret []
  | (message, conversation_history) :: turns' =>
      a <- chat self message conversation_history ;;
      rest <- chat_turns self turns' ;;
      ret (a :: rest)
  end.

End Service.
End ChatService.

(** ** utils/config.py *)

Module Config.
Import Text.



(** The settings the services read. *)
Record Settings := {
  OPENAI_API_KEY : str;
  UPLOAD_DIR : str;
  MAX_FILE_SIZE : Z;
  ALLOWED_ORIGINS : str;
  DEFAULT_MODEL : str;
  MAX_TOKENS : Z;
  WEAVIATE_CLASS_NAME : str
}.


(** [allowed_origins_list] *)
Definition allowed_origins_list (self : Settings) : list str :=
  map strip (split_on "," [] (ALLOWED_ORIGINS self)).


End Config.

(** ** pdf_service.py: documents *)

Module Documents.
Import Text PDFService.

(** The attributes of the service that [process_pdf] assigns. *)
Record Current := {
  _current_pdf_text : option str;
  _current_pdf_path : option (list str);
  _current_chunks : list PDFChunk
}.

(** [str(path)] for a [Path] of [pathlib] on POSIX, given by its
    components. *)
Definition path_str (path : list str) : str :=
  match path with
  | [] => lit "."
  | root :: parts =>
      if bool_decide (root = lit "/") then root ++ join (lit "/") parts
      else join (lit "/") path
  end.

(** The attributes after [__init__]. *)
Definition nothing_loaded : Current :=
  {| _current_pdf_text := None; _current_pdf_path := None; _current_chunks := [] |}.

(** The loop over the pages of [extract_text_from_pdf]; [page_num] is the
    number of the first page of [pages]. *)
Fixpoint read_pages (self : PDFService) (page_num : Z) (pages : list str)
    (all_text : list str) (all_chunks : list PDFChunk)
    : list str * list PDFChunk :=
  match pages with
  | [] => (all_text, all_chunks)
  | page_text :: rest =>
      if negb (bool_decide (strip page_text = [])) then
        let cleaned_text := _clean_text page_text in
        let page_chunks := _create_chunks self cleaned_text page_num 1000 in
        read_pages self (page_num + 1) rest
          (all_text ++ [cleaned_text]) (all_chunks ++ page_chunks)
      else read_pages self (page_num + 1) rest all_text all_chunks
  end.

(** [extract_text_from_pdf]. The file is read from the file system and
    handed to PyPDF2: [parse] gives the text of every page, or [None] when
    reading the PDF or extracting a page raises. [None] is the [ValueError]
    the function raises. *)
Definition extract_text_from_pdf (self : PDFService)
    (parse : list Byte.byte -> option (list str))
    (fs : gmap (list str) (list Byte.byte)) (pdf_path : list str)
    : option (str * Z * list PDFChunk) :=
  match fs !! pdf_path with
  | None => None
  | Some file =>
      match parse file with
      | None => None
      | Some pages =>
          let '(all_text, all_chunks) := read_pages self 0 pages [] [] in
          Some (join [nl; nl] all_text, Z.of_nat (length pages), all_chunks)
      end
  end.

(** What [process_pdf] leaves behind: its result ([None] when it raises),
    the attributes of the service and the file system. *)
Record processed := {
  p_result : option (str * Z * Z * list PDFChunk);
  p_current : Current;
  p_files : gmap (list str) (list Byte.byte)
}.

(** [process_pdf] *)
Definition process_pdf (disk : Disk) (self : PDFService)
    (parse : list Byte.byte -> option (list str)) (current : Current)
    (fs : gmap (list str) (list Byte.byte))
    (file_content : list Byte.byte) (filename : str) : processed :=
  let '(saved, fs) := save_pdf disk self fs file_content filename in
  match saved with
  | None => {| p_result := None; p_current := current; p_files := fs |}
  | Some pdf_path =>
      match extract_text_from_pdf self parse fs pdf_path with
      | None => {| p_result := None; p_current := current; p_files := fs |}
      | Some (extracted_text, num_pages, chunks) =>
          {| p_result := Some (extracted_text, num_pages,
                               Z.of_nat (length extracted_text), chunks);
             p_current := {| _current_pdf_text := Some extracted_text;
                             _current_pdf_path := Some pdf_path;
                             _current_chunks := chunks |};
             p_files := fs |}
      end
  end.

End Documents.

(** ** main.py *)

Module Main.
Import Text World PDFService RAGService ChatService Documents.
Local Open Scope world_scope.

(** The two global services, with the attributes of the PDF service and
    the files on disk. *)
Record App := {
  pdf_service : PDFService;
  current : Current;
  chat_service : ChatService.ChatService;
  files : gmap (list str) (list Byte.byte)
}.

(** How a request ends: with a response body, or with an [HTTPException]
    of the given status code. *)
Inductive reply (A : Type) :=
| Success (body : A)
| Failure (status_code : Z).
Arguments Success {A} body.
Arguments Failure {A} status_code.

(** [models.UploadResponse] *)
Record UploadResponse := {
  u_filename : str;
  u_pages : Z;
  u_text_length : Z;
  u_message : str
}.

(** [models.ChatResponse] *)
Record ChatResponse := {
  c_response : str;
  c_conversation_history : list ChatMessage;
  c_tokens_used : Z
}.

(** The dict of [get_pdf_info] for a loaded document. *)
Record PdfInfo := {
  i_filename : str;
  i_text_length : Z;
  i_has_content : bool;
  i_chunks_count : Z;
  i_rag_ready : bool
}.

Section Endpoints.
Variable env : Env.
(** The file system, see [save_pdf]. *)
Variable disk : Disk.
(** PyPDF2, see [extract_text_from_pdf]. *)
Variable parse : list Byte.byte -> option (list str).
(** [settings.MAX_FILE_SIZE] *)
Variable max_file_size : Z.

(** [upload_pdf] *)
Definition upload_pdf (app : App) (filename : str) (content : list Byte.byte)
    : M (reply UploadResponse * App) :=
  if negb (endswith (lit ".pdf") (lower filename)) then ret (Failure 400, app)
  else if Z.of_nat (length content) >? max_file_size then ret (Failure 400, app)
  else
    let p := process_pdf disk (pdf_service app) parse (current app) (files app)
               content filename in
    match p_result p with
    | None =>
        ret (Failure 500,
             {| pdf_service := pdf_service app; current := p_current p;
                chat_service := chat_service app; files := p_files p |})
    | Some (extracted_text, num_pages, text_length, chunks) =>
        chat_service' <- set_pdf_context env (chat_service app) extracted_text
                           (Some chunks) filename ;;
        ret (Success
               {| u_filename := filename;
                  u_pages := num_pages;
                  u_text_length := text_length;
                  u_message :=
                    lit "PDF uploaded and processed successfully. Created "
                    ++ of_Z (Z.of_nat (length chunks)) ++ lit " chunks for RAG." |},
             {| pdf_service := pdf_service app; current := p_current p;
                chat_service := chat_service'; files := p_files p |})
    end.

(** [models.ChatRequest] bounds the message: [min_length=1] and
    [max_length=2000]. *)
Definition valid_message (message : str) : bool :=
  ((1 <=? length message) && (length message <=? 2000))%nat.

(** [chat], the endpoint. A request that fails the validation of
    [ChatRequest] is answered with status 422 before the handler runs. *)
Definition chat_endpoint (app : App) (message : str)
    (conversation_history : option (list ChatMessage)) : M (reply ChatResponse) :=
  if negb (valid_message message) then ret (Failure 422)
  else if negb (truthy (_current_pdf_text (current app))) then ret (Failure 400)
  else
    a <- chat env (chat_service app) message conversation_history ;;
    match result a with
    | Raised => ret (Failure 500)
    | Returned r =>
        ret (Success {| c_response := response r;
                        c_conversation_history := ChatService.conversation_history r;
                        c_tokens_used := tokens_used r |})
    end.

(** [get_pdf_info]; [None] is the answer that no PDF is loaded. The path
    is a string that [str] made of a [Path], so it is never empty. *)
Definition get_pdf_info (app : App) : option PdfInfo :=
  if negb (truthy (_current_pdf_text (current app))) then None
  else
    let pdf_text := or_empty (_current_pdf_text (current app)) in
    let chunks := _current_chunks (current app) in
    Some {| i_filename :=
              match _current_pdf_path (current app) with
              | Some pdf_path => basename (path_str pdf_path)
              | None => lit "Unknown"
              end;
            i_text_length := Z.of_nat (length pdf_text);
            i_has_content := negb (bool_decide (strip pdf_text = []));
            i_chunks_count := Z.of_nat (length chunks);
            i_rag_ready := (5 <? length chunks)%nat |}.

End Endpoints.
End Main.

(** * Vocabulary of the proofs

    The definitions below do not model code of the backend: they name the
    notions the theorems are stated with, and the concrete inputs the
    examples run on. *)

(** ** Normalised text *)

Module Normal.
Import Text Regex PDFService.

(** [s.replace(old, new)] on one character, for one-character strings. *)
Definition swap (old new c : ascii) : ascii := if Ascii.eqb old c then new else c.

(** The two repairs of [_clean_text], on one character. *)
Definition repair (c : ascii) : ascii := swap "0" "O" (swap "|" "I" c).

(** The number of leading characters of [s] in the class [p]. *)
Fixpoint lead (p : ascii -> bool) (s : str) : nat :=
  match s with
  | c :: s' => if p c then S (lead p s') else O
  | [] => O
  end.

(** Whitespace runs as a two-state scan: [in_run] says that the character
    before was whitespace, so that the run already has its space. *)
Fixpoint squeeze (in_run : bool) (s : str) : str :=
  match s with
  | [] => []
  | c :: s' =>
      if is_space c
      then (if in_run then squeeze true s' else " "%char :: squeeze true s')
      else c :: squeeze false s'
  end.

(** Text whose only whitespace is single spaces; [after_space] says that
    the character before was one. *)
Fixpoint tidy (after_space : bool) (s : str) : Prop :=
  match s with
  | [] => True
  | c :: s' =>
      if is_space c then c = " "%char /\ after_space = false /\ tidy true s'
      else tidy false s'
  end.

(** A text that is a number, with whitespace around it at most: what
    [re_page_number] matches from the start of a line to its end. *)
Definition numeric_line (y : str) : Prop :=
  exists w1 d w2, y = w1 ++ d ++ w2 /\
    Forall (fun c => is_space c = true) w1 /\
    d <> [] /\ Forall (fun c => is_digit c = true) d /\
    Forall (fun c => is_space c = true) w2.

(** Text that does not begin with whitespace. *)
Definition starts_bare (s : str) : Prop :=
  match s with
  | c :: _ => is_space c = false
  | [] => True
  end.

(** A greedy run of the class [p] stops in front of [r]. *)
Definition stops (p : ascii -> bool) (r : str) : Prop :=
  match r with
  | c :: _ => p c = false
  | [] => True
  end.

(** A pattern of classes and [$] does not look at the character before. *)
Definition plain (re : regex) : bool :=
  forallb (fun a => match a with Cls _ _ | Eol => true | _ => false end) re.

End Normal.

(** ** The sentences of the chunks *)

Module Groups.
Import Text PDFService.

(** The loop of [_create_chunks] with the sentence lists kept as lists: the
    groups already closed and the one being filled. *)
Record grouping := { closed : list (list str); opened : list str }.

(** The token count of a list of sentences. *)
Definition tokens_of (self : PDFService) (b : list str) : Z :=
  sum (map (count_tokens self) b).

(** [feed] on sentence lists. *)
Definition regroup (self : PDFService) (max_tokens : Z) (g : grouping)
    (sentence : str) : grouping :=
  if (tokens_of self (opened g) + count_tokens self sentence >? max_tokens)
     && negb (bool_decide (opened g = []))
  then {| closed := closed g ++ [opened g];
          opened := overlap_sentences (opened g) ++ [sentence] |}
  else {| closed := closed g; opened := opened g ++ [sentence] |}.

Definition no_groups : grouping := {| closed := []; opened := [] |}.

Definition run (self : PDFService) (max_tokens : Z) (ss : list str) : grouping :=
  foldl (regroup self max_tokens) no_groups ss.

Definition all_groups (g : grouping) : list (list str) :=
  if bool_decide (opened g = []) then closed g else closed g ++ [opened g].

Definition group_sentences (self : PDFService) (max_tokens : Z)
    (sentences : list str) : list (list str) :=
  all_groups (run self max_tokens sentences).

(** The sentences of each chunk of [_create_chunks self text _ max_tokens]. *)
Definition sentence_groups (self : PDFService) (text : str) (max_tokens : Z)
    : list (list str) :=
  if bool_decide (strip text = []) then []
  else group_sentences self max_tokens (_split_into_sentences text).

(** The chunk the chunker builds from the [i]-th group. *)
Definition chunk_of (self : PDFService) (page_number : Z) (i : nat)
    (b : list str) : PDFChunk :=
  {| content := join (lit " ") b;
     page_number := page_number;
     chunk_index := Z.of_nat i;
     metadata := <["tokens"%string := tokens_of self b]>
                 (<["start_sentence"%string := 0]>
                 (<["end_sentence"%string := Z.of_nat (length b)]> ∅)) |}.

(** The loop state [st] of the chunker holds what the grouping [g] holds. *)
Definition tracks (self : PDFService) (page_number : Z) (st : chunker)
    (g : grouping) : Prop :=
  current_chunk st = opened g /\
  current_tokens st = tokens_of self (opened g) /\
  chunks st = imap (chunk_of self page_number) (closed g) /\
  next_index st = Z.of_nat (length (closed g)).

(** The group before the [i]-th one, if any. *)
Definition before (gs : list (list str)) (i : nat) : option (list str) :=
  match i with
  | O => None
  | S j => gs !! j
  end.

(** [P] holds of every group, given the group before it. *)
Definition each_after (P : option (list str) -> list str -> Prop)
    (gs : list (list str)) : Prop :=
  forall i g, gs !! i = Some g -> P (before gs i) g.

(** The sentences a group takes over from the group before it. *)
Definition carried (prev : option (list str)) : list str :=
  match prev with
  | None => []
  | Some p => overlap_sentences p
  end.

(** Every group without the sentences it took over. *)
Definition without_overlap (gs : list (list str)) : list (list str) :=
  imap (fun i g => drop (length (carried (before gs i))) g) gs.

(** A group starts with the overlap of the group before and goes on. *)
Definition linked (prev : option (list str)) (g : list str) : Prop :=
  exists rest, rest <> [] /\ g = carried prev ++ rest.

(** A group is within the budget, or it is the overlap of the group before
    and one more sentence. *)
Definition within (self : PDFService) (max_tokens : Z)
    (prev : option (list str)) (g : list str) : Prop :=
  tokens_of self g <= max_tokens \/ exists s, g = carried prev ++ [s].

(** [b] is a run of consecutive elements of [ss]. *)
Definition contiguous (b ss : list str) : Prop :=
  exists pre post, ss = pre ++ b ++ post.

(** What holds of the grouping after the sentences [ss]. *)
Record settled (self : PDFService) (max_tokens : Z) (ss : list str)
    (g : grouping) : Prop := {
  s_started : opened g = [] -> closed g = [] /\ ss = [];
  s_cover : concat (without_overlap (closed g ++ [opened g])) = ss;
  s_link : each_after linked (closed g)
           /\ (opened g <> [] -> linked (last (closed g)) (opened g));
  s_budget : each_after (within self max_tokens) (closed g)
             /\ (opened g <> [] -> within self max_tokens (last (closed g)) (opened g));
  s_whole : Forall (fun b => contiguous b ss) (closed g) /\ opened g `suffix_of` ss;
  s_closed : Forall (fun b => b <> []) (closed g)
}.

End Groups.

(** ** File names *)

Module Names.
Import Text PDFService Normal.

Definition dangerous (c : ascii) : bool :=
  bool_decide ([c] ∈ dangerous_chars).

(** The replacements of [_sanitize_filename], on one character. *)
Definition scrub (c : ascii) : ascii :=
  foldl (fun a d => match d with [old] => swap old "_" a | _ => a end) c dangerous_chars.

End Names.

(** ** Traces *)

Module Traces.
Import Text World RAGService ChatService.

(** A computation that only appends requests satisfying [P] to the trace. *)
Definition emits (P : request -> Prop) {A} (m : M A) : Prop :=
  forall t, exists added, (m t).2 = t ++ added /\ Forall P added.

(** The requests that write to the vector store. *)
Definition indexing (req : request) : Prop :=
  match req with
  | InsertMany _ | DeleteMany _ => True
  | _ => False
  end.

(** The requests of a chat turn in full-context mode: the completion, whose
    system message carries the first 5000 characters of the document, and
    the clock. *)
Definition full_context_request (self : ChatService) (req : request) : Prop :=
  match req with
  | CompletionsCreate _ (m :: _) _ _ =>
      m = {| m_role := lit "system";
             m_content := create_system_prompt self
                            (slice_to 5000 (or_empty (pdf_context self))) |}
  | Now => True
  | _ => False
  end.

(** The tokens of the first [m] results. *)
Definition tokens_to (m : nat) (results : list SearchResult) : Z :=
  PDFService.sum (map r_tokens (take m results)).

End Traces.

(** ** Concrete inputs *)

Module Examples.
Import Text World PDFService RAGService ChatService.

(** A service whose tokenizer failed to load: tokens are counted as a
    quarter of the length. *)
Definition fallback_service : PDFService :=
  {| upload_dir := [lit "uploads"]; tokenizer := None |}.

(** Three sentences of 20 characters, 5 tokens each. *)
Definition sentence_1 : str := lit "The cat sat on mats.".
Definition sentence_2 : str := lit "A dog ran to a park.".
Definition sentence_3 : str := lit "Two birds flew away.".
Definition page_text : str := join (lit " ") [sentence_1; sentence_2; sentence_3].

(** Four sentences of 12 characters, 3 tokens each. *)
Definition short_1 : str := lit "One is here.".
Definition short_2 : str := lit "Two is next.".
Definition short_3 : str := lit "Six is last.".
Definition short_4 : str := lit "Ten is gone.".
Definition short_page : str := join (lit " ") [short_1; short_2; short_3; short_4].

(** A page with a page number on a line of its own. *)
Definition page_with_number : str :=
  lit "Hello" ++ [nl] ++ lit "12" ++ [nl] ++ lit "World".

Definition hit (page : Z) (text : string) : StoredObject :=
  {| o_content := lit text; o_page_number := page; o_chunk_index := 0;
     o_filename := lit "zebra.pdf"; o_tokens := 20 |}.

Definition answer : Completion :=
  {| choices := [Some (lit "I do not know.")]; usage := Some 42 |}.

(** A world whose vector store is empty. *)
Definition quiet_env : Env :=
  {| collections_get := fun _ _ => true;
     delete_many := fun _ _ => Some 0;
     insert_many := fun _ _ => true;
     near_text := fun _ _ _ => Some [];
     completions_create := fun _ _ _ _ _ => Some answer;
     now := fun t => Z.of_nat (length t) |}.

(** A world whose vector store returns five chunks of 20 tokens. *)
Definition five_hits_env : Env :=
  {| collections_get := fun _ _ => true;
     delete_many := fun _ _ => Some 0;
     insert_many := fun _ _ => true;
     near_text := fun _ _ _ =>
       Some [hit 0 "Zebras graze."; hit 1 "Zebras roam."; hit 2 "Zebras rest.";
             hit 3 "Zebras run."; hit 4 "Zebras drink."];
     completions_create := fun _ _ _ _ _ => Some answer;
     now := fun t => Z.of_nat (length t) |}.

Definition zebra_index : RAGService.RAGService :=
  {| class_name := lit "PDFChunks"; embedding_model := lit "text-embedding-3-large" |}.

(** A chat service in retrieval mode with a document loaded. *)
Definition zebra_service : ChatService :=
  {| model := lit "gpt-3.5-turbo";
     max_tokens := 1000;
     temperature := QArith_base.Qmake 7 10;
     rag_service := zebra_index;
     pdf_context := Some (lit "Zebras graze at dawn.");
     use_rag := true;
     current_filename := Some (lit "zebra.pdf") |}.

Definition zebra_question : str := lit "What do zebras eat?".

End Examples.

(** ** Pieces of text and pages *)

Module Pages.
Import Text PDFService Normal Documents.

(** The text without its whitespace. *)
Definition solid (s : list ascii) : list ascii :=
  filter (fun c => is_space c = false) s.

(** A piece with a character other than whitespace at both ends. *)
Definition bare (p : str) : Prop :=
  p <> [] /\ starts_bare p /\ starts_bare (reverse p).

(** The chunks of one page of the document. *)
Definition page_chunks (self : PDFService) (i : nat) (page_text : str) : list PDFChunk :=
  if bool_decide (strip page_text = []) then []
  else _create_chunks self (_clean_text page_text) (Z.of_nat i) 1000.

(** What identifies a chunk within its document. *)
Definition chunk_key (c : PDFChunk) : Z * Z := (page_number c, chunk_index c).

End Pages.

(** ** What reaches the vector store *)

Module Store.
Import Text World PDFService RAGService.

(** The batches that the requests of a trace insert. *)
Definition inserted (t : trace) : list (list DataObject) :=
  omap (fun req => match req with InsertMany batch => Some batch | _ => None end) t.

(** The object [o] is the entry of the chunk [c] of the file [filename];
    the time of the upload is left open. *)
Definition describes (filename : str) (c : PDFChunk) (o : DataObject) : Prop :=
  d_content o = content c /\
  d_page_number o = page_number c /\
  d_chunk_index o = chunk_index c /\
  d_filename o = filename /\
  d_tokens o = default 0 (metadata c !! "tokens"%string).

(** The requests that clear the entries of a file, and those that store
    new ones. *)
Definition clears (self : RAGService.RAGService) (filename : str) (req : request) : Prop :=
  req = CollectionsGet (class_name self) \/ req = DeleteMany filename.

Definition stores (req : request) : Prop :=
  req = Now \/ exists batch, req = InsertMany batch.

End Store.

(** ** The two services of the application *)

Module Apps.
Import Text PDFService ChatService Documents Main.

(** The PDF service and the chat service hold the same document: the same
    text; retrieval mode only with more than 5 chunks; and a file on disk
    whose name is the sanitised name the chat service holds. *)
Definition in_step (app : App) : Prop :=
  pdf_context (chat_service app) = _current_pdf_text (current app) /\
  (use_rag (chat_service app) = true ->
   (5 < length (_current_chunks (current app)))%nat) /\
  (truthy (_current_pdf_text (current app)) = true ->
   exists filename file,
     current_filename (chat_service app) = Some filename /\
     _current_pdf_path (current app)
       = Some (upload_dir (pdf_service app) ++ [_sanitize_filename filename]) /\
     files app !! (upload_dir (pdf_service app) ++ [_sanitize_filename filename])
       = Some file).

End Apps.

(** ** Concrete uploads *)

Module Uploads.
Import Text World PDFService RAGService ChatService Documents Main Examples.

(** A file system that stores every file, and one that refuses every
    write. *)
Definition keeps : Disk := fun _ _ _ => Stored.

Definition refuses : Disk := fun _ _ _ => Refused.

(** A reader that fails on every file, and one that finds the given pages
    in every file. *)
Definition unreadable : list Byte.byte -> option (list str) := fun _ => None.

Definition reads (pages : list str) : list Byte.byte -> option (list str) :=
  fun _ => Some pages.

(** The chat service as [__init__] leaves it. *)
Definition idle_chat : ChatService :=
  {| model := lit "gpt-3.5-turbo";
     max_tokens := 1000;
     temperature := QArith_base.Qmake 7 10;
     rag_service := zebra_index;
     pdf_context := None;
     use_rag := false;
     current_filename := None |}.

(** The application after start-up, with an empty upload directory. *)
Definition idle_app : App :=
  {| pdf_service := fallback_service;
     current := nothing_loaded;
     chat_service := idle_chat;
     files := ∅ |}.

(** The default of [MAX_FILE_SIZE]. *)
Definition max_size : Z := 50 * 1024 * 1024.

(** The first bytes of a PDF file. *)
Definition pdf_bytes : list Byte.byte := [Byte.x25; Byte.x50; Byte.x44; Byte.x46].

(** A document of three pages, the second one blank. *)
Definition three_pages : list str := [page_text; lit "  "; short_page].

(** A document of two blank pages. *)
Definition blank_pages_only : list str := [[]; [nl; " "%char]].

(** Documents that agree on their first 5000 characters. *)
Definition long_text (ending : string) : str := replicate 5000 "a"%char ++ lit ending.

(** A chat service in full-context mode that holds the given text. *)
Definition reading (pdf_text : str) : ChatService :=
  {| model := lit "gpt-3.5-turbo";
     max_tokens := 1000;
     temperature := QArith_base.Qmake 7 10;
     rag_service := zebra_index;
     pdf_context := Some pdf_text;
     use_rag := false;
     current_filename := Some (lit "long.pdf") |}.

(** The upload of the three pages as [zebra.pdf], of the blank pages as
    [blank.pdf], and of a file that cannot be read as [Report.PDF], each to
    the application after start-up. *)
Definition three_page_upload : reply UploadResponse * App * trace :=
  upload_pdf quiet_env keeps (reads three_pages) max_size idle_app (lit "zebra.pdf")
    pdf_bytes [].

Definition blank_upload : reply UploadResponse * App * trace :=
  upload_pdf quiet_env keeps (reads blank_pages_only) max_size idle_app
    (lit "blank.pdf")
    pdf_bytes [].

Definition unreadable_upload : reply UploadResponse * App * trace :=
  upload_pdf quiet_env keeps unreadable max_size idle_app (lit "Report.PDF")
    pdf_bytes [].

(** The upload of the three pages to a file system that refuses it. *)
Definition refused_upload : reply UploadResponse * App * trace :=
  upload_pdf quiet_env refuses (reads three_pages) max_size idle_app
    (lit "zebra.pdf") pdf_bytes [].

End Uploads.

(** * Proofs *)

(** ** Facts about strings *)

Module TextFacts.
Import Text Normal.

Lemma replace_single old new s : replace [old] [new] s = map (swap old new) s.
Proof.
  unfold replace. induction s as [|c s IH]; [done|].
  simpl. unfold swap at 1. rewrite andb_true_r.
  destruct (Ascii.eqb old c); simpl; by rewrite IH.
Qed.

Lemma startswith_app p s : startswith p (p ++ s) = true.
Proof.
  induction p as [|a p IH]; [done|]. simpl.
  by rewrite IH, (proj2 (Ascii.eqb_eq a a)).
Qed.

Lemma endswith_app p s : endswith p (s ++ p) = true.
Proof. unfold endswith. rewrite reverse_app. apply startswith_app. Qed.

Lemma endswith_length p s : endswith p s = true -> (length p <= length s)%nat.
Proof.
  unfold endswith. rewrite <- (length_reverse p), <- (length_reverse s).
  generalize (reverse s).
  induction (reverse p) as [|a q IH]; intros [|c r]; simpl; try done; try lia.
  intros H. apply andb_true_iff in H as [_ H]. apply IH in H. lia.
Qed.

Lemma lower_app a b : lower (a ++ b) = lower a ++ lower b.
Proof. apply map_app. Qed.

Lemma split_on_absent c (s : str) : forall cur,
  c ∉ s -> split_on c cur s = [cur ++ s].
Proof.
  induction s as [|a s IH]; intros cur H; simpl.
  - by rewrite app_nil_r.
  - apply not_elem_of_cons in H as [H1 H2].
    destruct (Ascii.eqb a c) eqn:E.
    + apply Ascii.eqb_eq in E. congruence.
    + rewrite IH by done. by rewrite <- app_assoc.
Qed.

Lemma join_app sep (a b : list str) :
  a <> [] -> b <> [] -> join sep (a ++ b) = join sep a ++ sep ++ join sep b.
Proof.
  intros Ha Hb. induction a as [|x a IH]; [done|].
  destruct a as [|y a].
  - simpl. by destruct b.
  - change (join sep ((x :: y :: a) ++ b)) with (x ++ sep ++ join sep ((y :: a) ++ b)).
    rewrite IH by done. simpl. by rewrite <- !app_assoc.
Qed.

Lemma reverse_map {A B} (f : A -> B) (l : list A) :
  reverse (map f l) = map f (reverse l).
Proof.
  induction l as [|x l IH]; [done|]. simpl.
  by rewrite !reverse_cons, map_app, IH.
Qed.

Abbreviation spaces := (Forall (fun c => is_space c = true)).

Lemma lstrip_split s : exists l, s = l ++ lstrip s /\ spaces l.
Proof.
  induction s as [|c s (l & IH & Hl)]; [by exists []|]. simpl.
  destruct (is_space c) eqn:E.
  - exists (c :: l). split; [by rewrite IH at 1|by constructor].
  - by exists [].
Qed.

Lemma rstrip_split s : exists r, s = rstrip s ++ r /\ spaces r.
Proof.
  unfold rstrip. destruct (lstrip_split (reverse s)) as (l & H & Hl).
  exists (reverse l). split.
  - rewrite <- reverse_app, <- H. by rewrite reverse_involutive.
  - by apply Forall_reverse.
Qed.

(** [strip] cuts whitespace off both ends, and nothing else. *)
Lemma strip_split s : exists l r, s = l ++ strip s ++ r /\ spaces l /\ spaces r.
Proof.
  unfold strip. destruct (lstrip_split s) as (l & H & Hl).
  destruct (rstrip_split (lstrip s)) as (r & H' & Hr).
  exists l, r. split; [|done]. by rewrite <- H', <- H.
Qed.

Lemma lstrip_idem s : lstrip (lstrip s) = lstrip s.
Proof.
  induction s as [|c s IH]; [done|]. simpl.
  destruct (is_space c) eqn:E; [done|]. simpl. by rewrite E.
Qed.

Lemma rstrip_idem s : rstrip (rstrip s) = rstrip s.
Proof. unfold rstrip. by rewrite reverse_involutive, lstrip_idem. Qed.

Lemma lstrip_bare s : starts_bare (lstrip s).
Proof.
  induction s as [|c s IH]; [done|]. simpl.
  by destruct (is_space c) eqn:E.
Qed.

Lemma bare_lstrip s : starts_bare s -> lstrip s = s.
Proof. destruct s as [|c s]; [done|]. simpl. by intros ->. Qed.

Lemma rstrip_bare s : starts_bare s -> starts_bare (rstrip s).
Proof.
  intros H. destruct (rstrip_split s) as (r & Hs & Hr).
  destruct (rstrip s) as [|c v] eqn:E; [done|].
  by rewrite Hs in H.
Qed.

Lemma strip_idem s : strip (strip s) = strip s.
Proof.
  unfold strip. rewrite (bare_lstrip (rstrip (lstrip s))).
  - apply rstrip_idem.
  - apply rstrip_bare, lstrip_bare.
Qed.

Section Mapped.
Variable f : ascii -> ascii.
Hypothesis f_space : forall c, is_space (f c) = is_space c.

Lemma lstrip_map s : lstrip (map f s) = map f (lstrip s).
Proof.
  induction s as [|c s IH]; [done|]. simpl. rewrite f_space.
  by destruct (is_space c).
Qed.

Lemma strip_map s : strip (map f s) = map f (strip s).
Proof.
  unfold strip, rstrip. rewrite lstrip_map.
  by rewrite reverse_map, lstrip_map, reverse_map.
Qed.
End Mapped.

End TextFacts.

(** ** Facts about the matcher *)

Module RegexFacts.
Import Text Regex Normal.

Section Engine.
Variable p : ascii -> bool.
Variable k : option ascii -> str -> option nat.

(** A match of [p*] followed by [k] is a run of [p] followed by a match of
    [k]. *)
Lemma star_sound s : forall prev n,
  star p k prev s = Some n ->
  exists w r prev' m, s = w ++ r /\ Forall (fun c => p c = true) w /\
    k prev' r = Some m /\ n = (length w + m)%nat.
Proof.
  induction s as [|c s IH]; intros prev n H; simpl in H.
  - by exists [], [], prev, n.
  - destruct (p c) eqn:Ec.
    + destruct (star p k (Some c) s) as [n'|] eqn:Es.
      * injection H as <-.
        destruct (IH _ _ Es) as (w & r & prev' & m & -> & Hw & Hk & ->).
        exists (c :: w), r, prev', m. repeat split; try done. by constructor.
      * by exists [], (c :: s), prev, n.
    + by exists [], (c :: s), prev, n.
Qed.

Lemma plus_sound s prev n :
  plus p k prev s = Some n ->
  exists w r prev' m, s = w ++ r /\ w <> [] /\ Forall (fun c => p c = true) w /\
    k prev' r = Some m /\ n = (length w + m)%nat.
Proof.
  unfold plus. destruct s as [|c s]; [done|]. destruct (p c) eqn:Ec; [|done].
  destruct (star p k (Some c) s) as [n'|] eqn:Es; [|done]. simpl. intros [= <-].
  destruct (star_sound _ _ _ Es) as (w & r & prev' & m & -> & Hw & Hk & ->).
  exists (c :: w), r, prev', m. repeat split; try done. by constructor.
Qed.

Hypothesis k_forgets : forall prev prev' s, k prev s = k prev' s.

(** The longest run is tried first: when [k] matches behind it, that is
    the match. *)
Lemma star_greedy w r m : forall prev,
  Forall (fun c => p c = true) w -> stops p r -> k None r = Some m ->
  star p k prev (w ++ r) = Some (length w + m)%nat.
Proof.
  induction w as [|c w IH]; intros prev Hw Hr Hk.
  - destruct r as [|c r]; simpl; rewrite (k_forgets prev None); [done|].
    simpl in Hr. by rewrite Hr.
  - apply Forall_cons in Hw as [Hc Hw]. simpl. rewrite Hc.
    by rewrite (IH (Some c)).
Qed.

Lemma plus_greedy w r m prev :
  w <> [] -> Forall (fun c => p c = true) w -> stops p r -> k None r = Some m ->
  plus p k prev (w ++ r) = Some (length w + m)%nat.
Proof.
  intros Hne Hw Hr Hk. destruct w as [|c w]; [done|].
  apply Forall_cons in Hw as [Hc Hw]. simpl. rewrite Hc.
  by rewrite (star_greedy w r m).
Qed.

Lemma star_forgets s : forall prev prev', star p k prev s = star p k prev' s.
Proof.
  induction s as [|c s IH]; intros prev prev'; simpl.
  - apply k_forgets.
  - by rewrite (k_forgets prev prev').
Qed.

End Engine.

Lemma star_total p prev s : star p (fun _ _ => Some O) prev s = Some (lead p s).
Proof.
  revert prev. induction s as [|c s IH]; intros prev; simpl; [done|].
  destruct (p c); [|done]. by rewrite IH.
Qed.

Lemma match_here_star p re : match_here (Cls p Star :: re) = star p (match_here re).
Proof. done. Qed.

Lemma match_here_plus p re : match_here (Cls p Plus :: re) = plus p (match_here re).
Proof. done. Qed.

Lemma match_here_one p re : match_here (Cls p One :: re) = one p (match_here re).
Proof. done. Qed.

Lemma match_here_forgets re :
  plain re = true ->
  forall prev prev' s, match_here re prev s = match_here re prev' s.
Proof.
  induction re as [|a re IH]; intros H prev prev' s; [done|].
  simpl in H. apply andb_true_iff in H as [Ha H]. specialize (IH H).
  destruct a as [p [| |]| | |]; try done; cbn [match_here].
  - by apply star_forgets.
  - by rewrite IH with (prev' := prev').
Qed.

(** With nothing to put in, [re.sub] over a match that reaches the end
    leaves nothing. *)
Lemma sub_skip_all re s : forall prev, sub_from re [] (length s) prev s = [].
Proof.
  induction s as [|c s IH]; intros prev; simpl; [|done].
  by destruct (match_here re prev []).
Qed.

End RegexFacts.

(** ** The text normaliser *)

Module CleanText.
Import Text Regex PDFService Normal TextFacts RegexFacts Examples.

Abbreviation no_nl := (Forall (fun c => is_nl c = false)).

(** *** [\s+]: whitespace runs become single spaces *)

Lemma match_spaces prev s :
  match_here re_spaces prev s
  = match s with
    | c :: s' => if is_space c then Some (S (lead is_space s')) else None
    | [] => None
    end.
Proof.
  unfold re_spaces. rewrite match_here_plus. unfold plus.
  destruct s as [|c s]; [done|]. destruct (is_space c); [|done].
  change (match_here []) with (fun (_ : option ascii) (_ : str) => Some O).
  by rewrite star_total.
Qed.

Lemma sub_spaces s : forall prev,
  sub_from re_spaces (lit " ") (lead is_space s) prev s = squeeze true s /\
  sub_from re_spaces (lit " ") 0 prev s = squeeze false s.
Proof.
  induction s as [|c s IH]; intros prev.
  - split; cbn [sub_from lead]; by rewrite match_spaces.
  - cbn [sub_from lead squeeze]. rewrite match_spaces.
    destruct (IH (Some c)) as [IH1 IH2].
    destruct (is_space c); by rewrite ?IH1, ?IH2.
Qed.

Lemma sub_spaces_squeeze s : sub re_spaces (lit " ") s = squeeze false s.
Proof. apply sub_spaces. Qed.

Lemma squeeze_tidy s : forall b, tidy b (squeeze b s).
Proof.
  induction s as [|c s IH]; intros b; simpl; [done|].
  destruct (is_space c) eqn:E.
  - destruct b; [apply IH|]. simpl. auto.
  - simpl. rewrite E. apply IH.
Qed.

Lemma tidy_squeeze s : forall b, tidy b s -> squeeze b s = s.
Proof.
  induction s as [|c s IH]; intros b; simpl; [done|].
  destruct (is_space c) eqn:E.
  - intros (-> & -> & H). by rewrite IH.
  - intros H. by rewrite IH.
Qed.

Lemma tidy_weaken s b : tidy b s -> tidy false s.
Proof.
  destruct s as [|c s]; simpl; [done|]. destruct (is_space c); [|done]. tauto.
Qed.

Lemma tidy_no_nl s : forall b, tidy b s -> no_nl s.
Proof.
  induction s as [|c s IH]; intros b; simpl; [done|].
  destruct (is_space c) eqn:E.
  - intros (-> & _ & H). constructor; [done|]. by eapply IH.
  - intros H. constructor; [|by eapply IH].
    destruct (is_nl c) eqn:En; [|done]. unfold is_nl in En.
    apply Ascii.eqb_eq in En. by subst c.
Qed.

Lemma tidy_app_l s r : forall b, tidy b (s ++ r) -> tidy b s.
Proof.
  induction s as [|c s IH]; intros b; simpl; [done|].
  destruct (is_space c); [|apply IH]. intros (? & ? & ?). eauto.
Qed.

Lemma tidy_app_r l s : forall b, tidy b (l ++ s) -> tidy false s.
Proof.
  induction l as [|c l IH]; intros b; simpl; [apply tidy_weaken|].
  destruct (is_space c); [|apply IH]. intros (? & ? & ?). eauto.
Qed.

Lemma tidy_strip s b : tidy b s -> tidy false (strip s).
Proof.
  intros H. destruct (strip_split s) as (l & r & Hs & _). rewrite Hs in H.
  apply tidy_app_r in H. by apply tidy_app_l in H.
Qed.

(** *** [^\s*\d+\s*$]: the page-number pattern *)

Lemma digit_not_space c : is_digit c = true -> is_space c = false.
Proof. by destruct c as [[] [] [] [] [] [] [] []]. Qed.

Lemma space_not_digit c : is_space c = true -> is_digit c = false.
Proof. by destruct c as [[] [] [] [] [] [] [] []]. Qed.

Lemma page_number_sound prev y n :
  match_here re_page_number prev y = Some n ->
  exists u r, y = u ++ r /\ length u = n /\ numeric_line u /\ at_eol r = true.
Proof.
  unfold re_page_number. cbn [match_here]. destruct (at_bol prev); [|done].
  intros H.
  apply star_sound in H as (w1 & r1 & p1 & m1 & -> & Hw1 & H & ->).
  apply plus_sound in H as (d & r2 & p2 & m2 & -> & Hd0 & Hd & H & ->).
  apply star_sound in H as (w2 & r3 & p3 & m3 & -> & Hw2 & H & ->).
  destruct (at_eol r3) eqn:E; [|done]. injection H as <-.
  exists (w1 ++ d ++ w2), r3. rewrite <- !app_assoc. split; [done|].
  split; [rewrite !length_app; lia|]. split; [|done].
  by exists w1, d, w2.
Qed.

Lemma page_number_complete y :
  numeric_line y -> match_here re_page_number None y = Some (length y).
Proof.
  intros (w1 & d & w2 & -> & Hw1 & Hd0 & Hd & Hw2).
  unfold re_page_number.
  change (match_here (Bol :: ?re) None ?s) with (match_here re None s).
  rewrite match_here_star.
  rewrite (star_greedy _ _
             (match_here_forgets [Cls is_digit Plus; Cls is_space Star; Eol] eq_refl)
             w1 (d ++ w2) (length d + length w2)); try done.
  - by rewrite !length_app.
  - destruct d as [|c d]; [done|]. simpl. apply Forall_cons in Hd as [Hc _].
    by apply digit_not_space.
  - rewrite match_here_plus.
    rewrite (plus_greedy _ _ (match_here_forgets [Cls is_space Star; Eol] eq_refl)
               d w2 (length w2)); try done.
    + destruct w2 as [|c w2]; [done|]. simpl. apply Forall_cons in Hw2 as [Hc _].
      by apply space_not_digit.
    + rewrite match_here_star. rewrite <- (app_nil_r w2) at 1.
      rewrite (star_greedy _ _ (match_here_forgets [Eol] eq_refl) w2 [] 0); try done.
      by rewrite Nat.add_0_r.
Qed.

(** Past the first character of a text without newlines, [^] never holds. *)
Lemma sub_page_number_tail repl s : forall c,
  is_nl c = false -> no_nl s -> sub_from re_page_number repl 0 (Some c) s = s.
Proof.
  induction s as [|a s IH]; intros c Hc Hs.
  - simpl. by rewrite Hc.
  - apply Forall_cons in Hs as [Ha Hs]. cbn [sub_from].
    replace (match_here re_page_number (Some c) (a :: s)) with (@None nat).
    + by rewrite IH.
    + unfold re_page_number. cbn [match_here at_bol]. by rewrite Hc.
Qed.

(** On a text without newlines the pattern removes all or nothing. *)
Lemma sub_page_number y :
  no_nl y ->
  (numeric_line y /\ sub re_page_number [] y = [])
  \/ (~ numeric_line y /\ sub re_page_number [] y = y).
Proof.
  intros Hy. unfold sub.
  destruct (match_here re_page_number None y) as [n|] eqn:E.
  - left. apply page_number_sound in E as (u & r & -> & <- & Hu & Hr).
    assert (r = []) as ->.
    { destruct r as [|c r]; [done|]. apply Forall_app in Hy as [_ Hy].
      apply Forall_cons in Hy as [Hc _]. simpl in Hr. congruence. }
    rewrite app_nil_r in *. split; [done|].
    destruct u as [|c u].
    + destruct Hu as (w1 & d & w2 & H & _ & Hd & _).
      symmetry in H. apply app_eq_nil in H as [_ H].
      by apply app_eq_nil in H as [? _].
    + cbn [sub_from]. rewrite (page_number_complete _ Hu). simpl.
      apply sub_skip_all.
  - right. split.
    + intros H. apply page_number_complete in H. congruence.
    + destruct y as [|c y]; cbn [sub_from]; rewrite E; [done|].
      apply Forall_cons in Hy as [Hc Hy]. by rewrite sub_page_number_tail.
Qed.

(** *** [\n\s*\n\s*\n+]: nothing to do without newlines *)

Lemma sub_line_breaks repl s : forall prev,
  no_nl s -> sub_from re_line_breaks repl 0 prev s = s.
Proof.
  induction s as [|a s IH]; intros prev Hs; [done|].
  apply Forall_cons in Hs as [Ha Hs]. cbn [sub_from].
  replace (match_here re_line_breaks prev (a :: s)) with (@None nat).
  - by rewrite IH.
  - unfold re_line_breaks. rewrite match_here_one. simpl. by rewrite Ha.
Qed.

(** *** The repairs *)

Lemma repair_space c : is_space (repair c) = is_space c.
Proof. by destruct c as [[] [] [] [] [] [] [] []]. Qed.

Lemma repair_digit c : is_digit (repair c) = true -> is_digit c = true.
Proof. by destruct c as [[] [] [] [] [] [] [] []]. Qed.

Lemma repair_idem c : repair (repair c) = repair c.
Proof. by destruct c as [[] [] [] [] [] [] [] []]. Qed.

Lemma tidy_repair s : forall b, tidy b s -> tidy b (map repair s).
Proof.
  induction s as [|c s IH]; intros b; simpl; [done|].
  rewrite repair_space. destruct (is_space c) eqn:E; [|apply IH].
  intros (-> & -> & H). auto.
Qed.

Lemma numeric_repair t : numeric_line (map repair t) -> numeric_line t.
Proof.
  intros (w1 & d & w2 & H & Hw1 & Hd0 & Hd & Hw2).
  apply map_eq_app in H as (t1 & t' & -> & <- & H).
  apply map_eq_app in H as (t2 & t3 & -> & <- & <-).
  exists t1, t2, t3. split; [done|]. repeat split.
  - rewrite Forall_map in Hw1. eapply Forall_impl; [exact Hw1|].
    intros c. simpl. by rewrite repair_space.
  - by destruct t2.
  - rewrite Forall_map in Hd. eapply Forall_impl; [exact Hd|].
    intros c. apply repair_digit.
  - rewrite Forall_map in Hw2. eapply Forall_impl; [exact Hw2|].
    intros c. simpl. by rewrite repair_space.
Qed.

Lemma numeric_strip u : numeric_line (strip u) -> numeric_line u.
Proof.
  intros (w1 & d & w2 & H & Hw1 & Hd0 & Hd & Hw2).
  destruct (strip_split u) as (l & r & Hu & Hl & Hr).
  exists (l ++ w1), d, (w2 ++ r). rewrite Hu, H. split.
  - by rewrite <- !app_assoc.
  - repeat split; try done; by apply Forall_app.
Qed.

(** *** [_clean_text] in closed form

    The whitespace runs are collapsed first, so the page-number pattern
    sees one line: the page is emptied when it is a number as a whole, and
    is otherwise squeezed, repaired and stripped. *)
Lemma clean_text_cases x :
  (numeric_line (squeeze false x) /\ _clean_text x = [])
  \/ (~ numeric_line (squeeze false x)
      /\ _clean_text x = strip (map repair (squeeze false x))).
Proof.
  unfold _clean_text. rewrite sub_spaces_squeeze.
  pose proof (squeeze_tidy x false) as Ht.
  destruct (sub_page_number (squeeze false x)) as [[Hn ->]|[Hn ->]].
  - by eapply tidy_no_nl.
  - by left.
  - right. split; [done|].
    change (lit "|") with ["|"%char]. change (lit "I") with ["I"%char].
    change (lit "0") with ["0"%char]. change (lit "O") with ["O"%char].
    rewrite !replace_single, map_map. fold repair.
    unfold sub. rewrite sub_line_breaks; [done|].
    eapply tidy_no_nl, tidy_repair, Ht.
Qed.

(** C6. The normaliser is idempotent: cleaning a cleaned text changes
    nothing, for every input text. *)
Theorem clean_text_idempotent x : _clean_text (_clean_text x) = _clean_text x.
Proof.
  destruct (clean_text_cases x) as [[_ ->]|[Hn Hx]]; [done|].
  assert (tidy false (_clean_text x)) as Ht.
  { rewrite Hx. eapply tidy_strip, tidy_repair, squeeze_tidy. }
  destruct (clean_text_cases (_clean_text x)) as [[Hy _]|[_ ->]].
  - rewrite (tidy_squeeze _ _ Ht), Hx in Hy.
    by apply numeric_strip, numeric_repair in Hy.
  - rewrite (tidy_squeeze _ _ Ht), Hx.
    rewrite <- (strip_map repair repair_space), map_map.
    rewrite (map_ext _ repair repair_idem). apply strip_idem.
Qed.

(** C7. A page number on a line of its own stays in the cleaned text: the
    line breaks around it are collapsed before the page-number pattern
    runs, so the pattern no longer finds the line. *)
Theorem clean_text_keeps_page_number :
  _clean_text page_with_number = lit "Hello 12 World".
Proof. vm_compute. reflexivity. Qed.

End CleanText.

(** ** The chunker *)

Module Chunker.
Import Text Regex PDFService Groups TextFacts Examples.

(** *** The chunks are the sentence groups, joined *)

Lemma sum_snoc l x : sum (l ++ [x]) = sum l + x.
Proof. unfold sum. by rewrite foldl_app. Qed.

Lemma tokens_of_snoc self b s :
  tokens_of self (b ++ [s]) = tokens_of self b + count_tokens self s.
Proof. unfold tokens_of. rewrite map_app. apply sum_snoc. Qed.

Lemma feed_tracks self page max st g s :
  tracks self page st g ->
  tracks self page (feed self page max st s) (regroup self max g s).
Proof.
  intros (Hc & Ht & Hk & Hn). unfold feed, regroup.
  rewrite Hc, Ht.
  destruct (_ && _) eqn:E; (split; [|split; [|split]]); simpl.
  all: rewrite ?Hc, ?Ht, ?Hn, ?Hk; try done.
  - rewrite imap_app. f_equal. simpl. unfold emit, chunk_of.
    rewrite Hc, Ht, Hn. by rewrite Nat.add_0_r.
  - rewrite length_app. simpl. lia.
  - by rewrite tokens_of_snoc.
Qed.

Lemma foldl_tracks self page max ss : forall st g,
  tracks self page st g ->
  tracks self page (foldl (feed self page max) st ss)
                   (foldl (regroup self max) g ss).
Proof.
  induction ss as [|s ss IH]; intros st g H; simpl; [done|].
  apply IH. by apply feed_tracks.
Qed.

Lemma create_chunks_groups self text page max :
  _create_chunks self text page max
  = imap (chunk_of self page) (sentence_groups self text max).
Proof.
  unfold _create_chunks, sentence_groups, group_sentences, all_groups, run.
  case_bool_decide; [done|].
  destruct (foldl_tracks self page max (_split_into_sentences text) start no_groups)
    as (Hc & Ht & Hk & Hn); [by repeat split|].
  rewrite Hc. case_bool_decide as E; [done|].
  rewrite imap_app, Hk. f_equal. simpl. unfold emit, chunk_of.
  by rewrite Hc, Ht, Hn, Nat.add_0_r.
Qed.

Lemma chunk_lookup self text page max i c :
  _create_chunks self text page max !! i = Some c ->
  exists b, sentence_groups self text max !! i = Some b /\ c = chunk_of self page i b.
Proof.
  rewrite create_chunks_groups, list_lookup_imap.
  destruct (_ !! i) as [b|]; [|done]. simpl. intros [= <-]. eauto.
Qed.

Lemma map_imap {A B C} (g : B -> C) (h : A -> C) (l : list A) :
  forall f : nat -> A -> B,
    (forall i x, g (f i x) = h x) -> map g (imap f l) = map h l.
Proof.
  induction l as [|x l IH]; intros f H; simpl; [done|].
  rewrite H. f_equal. apply IH. intros i y. apply H.
Qed.

(** *** A group and the group before it *)

Lemma before_snoc gs g i : (i <= length gs)%nat -> before (gs ++ [g]) i = before gs i.
Proof.
  destruct i as [|j]; simpl; [done|]. intros H. apply lookup_app_l. lia.
Qed.

Lemma before_length gs : before gs (length gs) = last gs.
Proof.
  destruct gs as [|g gs] using rev_ind; [done|].
  rewrite length_app, last_snoc. simpl. rewrite Nat.add_1_r. simpl.
  by rewrite lookup_app_r, Nat.sub_diag.
Qed.

Lemma each_after_snoc P gs g :
  each_after P (gs ++ [g]) <-> each_after P gs /\ P (last gs) g.
Proof.
  unfold each_after. split.
  - intros H. split.
    + intros i b Hi. pose proof (lookup_lt_Some _ _ _ Hi) as Hlt.
      rewrite <- (before_snoc gs g i) by lia. apply H.
      by rewrite lookup_app_l.
    + rewrite <- before_length, <- (before_snoc gs g) by lia.
      apply H. by rewrite lookup_app_r, Nat.sub_diag.
  - intros [H1 H2] i b Hi.
    destruct (decide (i < length gs)%nat) as [Hlt|Hge].
    + rewrite before_snoc by lia. apply H1. by rewrite lookup_app_l in Hi.
    + rewrite lookup_app_r in Hi by lia.
      destruct (i - length gs)%nat as [|k] eqn:E; simpl in Hi; [|by destruct k].
      assert (i = length gs) as -> by lia. injection Hi as <-.
      by rewrite before_snoc, before_length by lia.
Qed.

Lemma without_overlap_snoc gs g :
  without_overlap (gs ++ [g])
  = without_overlap gs ++ [drop (length (carried (last gs))) g].
Proof.
  unfold without_overlap. rewrite imap_app. simpl. f_equal.
  - apply imap_ext. intros i b Hi. simpl.
    rewrite before_snoc; [done|]. apply lookup_lt_Some in Hi. lia.
  - by rewrite Nat.add_0_r, before_snoc, before_length by lia.
Qed.

Lemma overlap_suffix b : overlap_sentences b `suffix_of` b.
Proof. unfold overlap_sentences. case_match; [apply suffix_drop|done]. Qed.

Lemma overlap_nonempty (b : list str) : b <> [] -> overlap_sentences b <> [].
Proof.
  unfold overlap_sentences. destruct b as [|x [|y b]]; try done.
  intros _. simpl. intros H. apply (f_equal length) in H.
  rewrite length_drop in H. simpl in H. lia.
Qed.

Lemma overlap_length (b : list str) : (length (overlap_sentences b) <= 2)%nat.
Proof.
  unfold overlap_sentences. case_match eqn:E.
  - rewrite length_drop. lia.
  - apply Nat.leb_gt in E. lia.
Qed.

Lemma suffix_contiguous (b ss : list str) : b `suffix_of` ss -> contiguous b ss.
Proof. intros [k ->]. exists k, []. by rewrite app_nil_r. Qed.

Lemma contiguous_snoc (b ss : list str) s :
  contiguous b ss -> contiguous b (ss ++ [s]).
Proof.
  intros (pre & post & ->). exists pre, (post ++ [s]). by rewrite <- !app_assoc.
Qed.

(** *** The invariant of the loop *)

Section Run.
Variable self : PDFService.
Variable max_tokens : Z.

(** Induction over the sentences fed so far: a sentence either closes the
    open group and starts the next one from its overlap, or joins the open
    group. *)
Lemma run_ind (P : list str -> grouping -> Prop) :
  P [] no_groups ->
  (forall ss g s, P ss g -> opened g <> [] ->
     tokens_of self (opened g) + count_tokens self s > max_tokens ->
     P (ss ++ [s]) {| closed := closed g ++ [opened g];
                      opened := overlap_sentences (opened g) ++ [s] |}) ->
  (forall ss g s, P ss g ->
     opened g = [] \/ tokens_of self (opened g) + count_tokens self s <= max_tokens ->
     P (ss ++ [s]) {| closed := closed g; opened := opened g ++ [s] |}) ->
  forall ss, P ss (run self max_tokens ss).
Proof.
  intros H0 Hclose Happend ss. induction ss as [|s ss IH] using rev_ind; [done|].
  unfold run. rewrite foldl_app. simpl. fold (run self max_tokens ss).
  unfold regroup. destruct (_ && _) eqn:E.
  - apply andb_true_iff in E as [E1 E2]. apply Hclose; [done| |lia].
    apply negb_true_iff in E2. by apply bool_decide_eq_false in E2.
  - apply Happend; [done|]. apply andb_false_iff in E as [E|E].
    + right. lia.
    + left. apply negb_false_iff in E. by apply bool_decide_eq_true in E.
Qed.

Lemma run_settled ss : settled self max_tokens ss (run self max_tokens ss).
Proof.
  apply run_ind; clear ss.
  - split; simpl; try done.
    all: split; [|done]; by intros [|i] g H.
  - intros ss g s [H1 H2 [H3 H3'] [H4 H4'] [H5 H5'] H6] Hne Hgt.
    split; simpl.
    + intros H. by apply app_eq_nil in H as [_ ?].
    + rewrite without_overlap_snoc, concat_app, H2, last_snoc. simpl.
      by rewrite drop_app_length, app_nil_r.
    + split.
      * apply each_after_snoc. auto.
      * intros _. rewrite last_snoc. by exists [s].
    + split.
      * apply each_after_snoc. auto.
      * intros _. rewrite last_snoc. right. by exists s.
    + split.
      * apply Forall_app. split.
        -- eapply Forall_impl; [exact H5|]. intros b. apply contiguous_snoc.
        -- apply Forall_singleton, contiguous_snoc, suffix_contiguous, H5'.
      * apply suffix_app. etrans; [apply overlap_suffix|done].
    + apply Forall_app. split; [done|]. by apply Forall_singleton.
  - intros ss g s [H1 H2 [H3 H3'] [H4 H4'] [H5 H5'] H6] Hor.
    split; simpl.
    + intros H. by apply app_eq_nil in H as [_ ?].
    + rewrite without_overlap_snoc in *. rewrite concat_app in *. simpl in *.
      rewrite !app_nil_r in *. rewrite <- H2. rewrite <- app_assoc. f_equal.
      destruct (decide (opened g = [])) as [E|E].
      * destruct (H1 E) as [-> _]. by rewrite E.
      * destruct (H3' E) as (rest & _ & ->). rewrite <- app_assoc.
        by rewrite !drop_app_length.
    + split; [done|]. intros _.
      destruct (decide (opened g = [])) as [E|E].
      * destruct (H1 E) as [-> _]. rewrite E. by exists [s].
      * destruct (H3' E) as (rest & Hr & ->). exists (rest ++ [s]).
        split; [|by rewrite app_assoc]. intros H. by apply app_eq_nil in H as [_ ?].
    + split; [done|]. intros _.
      destruct Hor as [E|Hle].
      * destruct (H1 E) as [-> _]. rewrite E. right. by exists s.
      * left. rewrite tokens_of_snoc. lia.
    + split.
      * eapply Forall_impl; [exact H5|]. intros b. apply contiguous_snoc.
      * by apply suffix_app.
    + done.
Qed.

Lemma group_sentences_run ss :
  group_sentences self max_tokens ss
  = match ss with
    | [] => []
    | _ => closed (run self max_tokens ss) ++ [opened (run self max_tokens ss)]
    end.
Proof.
  unfold group_sentences, all_groups.
  destruct (run_settled ss) as [H1 _ _ _ _ _].
  case_bool_decide as E.
  - by destruct (H1 E) as [-> ->].
  - destruct ss; [|done]. by destruct E.
Qed.

Lemma opened_nonempty ss : ss <> [] -> opened (run self max_tokens ss) <> [].
Proof.
  intros Hss E. destruct (run_settled ss) as [H1 _ _ _ _ _].
  by destruct (H1 E).
Qed.

Lemma groups_cover ss :
  concat (without_overlap (group_sentences self max_tokens ss)) = ss.
Proof.
  rewrite group_sentences_run. destruct ss as [|s ss]; [done|].
  apply run_settled.
Qed.

Lemma groups_link ss : each_after linked (group_sentences self max_tokens ss).
Proof.
  rewrite group_sentences_run. destruct ss as [|s ss]; [by intros [|i] g H|].
  destruct (run_settled (s :: ss)) as [_ _ [H H'] _ _ _].
  apply each_after_snoc. split; [done|]. by apply H', opened_nonempty.
Qed.

Lemma groups_budget ss :
  each_after (within self max_tokens) (group_sentences self max_tokens ss).
Proof.
  rewrite group_sentences_run. destruct ss as [|s ss]; [by intros [|i] g H|].
  destruct (run_settled (s :: ss)) as [_ _ _ [H H'] _ _].
  apply each_after_snoc. split; [done|]. by apply H', opened_nonempty.
Qed.

Lemma groups_whole ss :
  Forall (fun b => b <> [] /\ contiguous b ss) (group_sentences self max_tokens ss).
Proof.
  rewrite group_sentences_run. destruct ss as [|s ss]; [done|].
  destruct (run_settled (s :: ss)) as [_ _ _ _ [H H'] H6].
  apply Forall_app. split.
  - by apply Forall_and.
  - apply Forall_singleton.
    split; [by apply opened_nonempty|by apply suffix_contiguous].
Qed.

End Run.

Lemma sentence_groups_eq self text max :
  strip text <> [] ->
  sentence_groups self text max
  = group_sentences self max (_split_into_sentences text).
Proof. intros H. unfold sentence_groups. by case_bool_decide. Qed.

Lemma sentence_groups_cases self text max :
  sentence_groups self text max = []
  \/ sentence_groups self text max
     = group_sentences self max (_split_into_sentences text).
Proof. unfold sentence_groups. case_bool_decide; auto. Qed.

(** *** The properties of the chunks *)

(** C1, as the code has it. Every chunk is a run of whole, consecutive
    sentences joined by single spaces, and the token count it records is
    the sum over its sentences. That count is at most [max_tokens] unless
    the chunk is exactly what a chunk starts as: the overlap carried over
    from the chunk before (nothing, for the first chunk) and one more
    sentence. *)
Theorem token_ceiling_with_overlap self text page max i c :
  _create_chunks self text page max !! i = Some c ->
  exists b,
    sentence_groups self text max !! i = Some b /\
    content c = join (lit " ") b /\
    b <> [] /\ contiguous b (_split_into_sentences text) /\
    metadata c !! "tokens"%string = Some (tokens_of self b) /\
    (tokens_of self b <= max
     \/ exists s, b = carried (before (sentence_groups self text max) i) ++ [s]).
Proof.
  intros Hc. destruct (chunk_lookup _ _ _ _ _ _ Hc) as (b & Hb & ->).
  exists b. split; [done|]. split; [done|].
  destruct (sentence_groups_cases self text max) as [E|E]; rewrite E in *; [done|].
  pose proof (groups_whole self max (_split_into_sentences text)) as Hw.
  rewrite Forall_lookup in Hw. destruct (Hw _ _ Hb) as [Hne Hct].
  split; [done|]. split; [done|]. split; [done|].
  by apply groups_budget.
Qed.

(** C1, as stated, fails: three sentences of 5 tokens under a budget of 10.
    No sentence exceeds the budget, and the second chunk, the overlap of
    two sentences and the third one, records 15 tokens. *)
Lemma token_ceiling_counterexample :
  ~ (forall c, In c (_create_chunks fallback_service page_text 0 10) ->
       exists n, metadata c !! "tokens"%string = Some n /\
         (n <= 10 \/
          exists s, In s (_split_into_sentences page_text) /\
                    count_tokens fallback_service s > 10)).
Proof.
  intros H.
  destruct (H (chunk_of fallback_service 0 1 [sentence_1; sentence_2; sentence_3]))
    as (n & Hn & Hor).
  - vm_compute. right. left. reflexivity.
  - vm_compute in Hn. injection Hn as <-.
    destruct Hor as [Hle | (s & Hs & Hgt)]; [lia|].
    vm_compute in Hs.
    destruct Hs as [<- | [<- | [<- | []]]]; vm_compute in Hgt; discriminate.
Qed.

Lemma token_ceiling_witness :
  exists b,
    sentence_groups fallback_service page_text 10 !! 1%nat = Some b /\
    content (chunk_of fallback_service 0 1 [sentence_1; sentence_2; sentence_3])
      = join (lit " ") b /\
    b <> [] /\ contiguous b (_split_into_sentences page_text) /\
    metadata (chunk_of fallback_service 0 1 [sentence_1; sentence_2; sentence_3])
      !! "tokens"%string = Some (tokens_of fallback_service b) /\
    (tokens_of fallback_service b <= 10
     \/ exists s,
          b = carried (before (sentence_groups fallback_service page_text 10) 1) ++ [s]).
Proof.
  apply (token_ceiling_with_overlap fallback_service page_text 0 10 1).
  vm_compute. reflexivity.
Defined.

(** C4. Of two consecutive chunks of a page, the second starts with the
    last two sentences of the first (with all of them, if the first has
    fewer than two), word for word, and goes on with at least one more
    sentence. *)
Theorem overlap_invariant self text page max i c c' :
  _create_chunks self text page max !! i = Some c ->
  _create_chunks self text page max !! S i = Some c' ->
  exists b rest,
    sentence_groups self text max !! i = Some b /\
    sentence_groups self text max !! S i = Some (overlap_sentences b ++ rest) /\
    rest <> [] /\
    content c = join (lit " ") b /\
    content c' = join (lit " ") (overlap_sentences b ++ rest) /\
    join (lit " ") (overlap_sentences b) `suffix_of` content c /\
    (join (lit " ") (overlap_sentences b) ++ lit " ") `prefix_of` content c'.
Proof.
  intros Hc Hc'.
  destruct (chunk_lookup _ _ _ _ _ _ Hc) as (b & Hb & ->).
  destruct (chunk_lookup _ _ _ _ _ _ Hc') as (b' & Hb' & ->).
  destruct (sentence_groups_cases self text max) as [E|E]; rewrite E in *; [done|].
  destruct (groups_link self max _ _ _ Hb') as (rest & Hrest & Hb'').
  simpl in Hb''. rewrite Hb in Hb''. simpl in Hb''. subst b'.
  pose proof (groups_whole self max (_split_into_sentences text)) as Hw.
  rewrite Forall_lookup in Hw. destruct (Hw _ _ Hb) as [Hne _].
  exists b, rest. repeat (split; [done|]). simpl. split.
  - destruct (overlap_suffix b) as [k Hk]. rewrite Hk at 2.
    destruct k as [|x k]; [done|].
    rewrite join_app; [|done|by apply overlap_nonempty].
    exists (join (lit " ") (x :: k) ++ lit " "). by rewrite <- app_assoc.
  - rewrite join_app; [|by apply overlap_nonempty|done].
    exists (join (lit " ") rest). by rewrite <- app_assoc.
Qed.

Lemma overlap_invariant_witness :
  exists b rest,
    sentence_groups fallback_service short_page 10 !! 0%nat = Some b /\
    sentence_groups fallback_service short_page 10 !! 1%nat
      = Some (overlap_sentences b ++ rest) /\
    rest <> [] /\
    content (chunk_of fallback_service 0 0 [short_1; short_2; short_3])
      = join (lit " ") b /\
    content (chunk_of fallback_service 0 1 [short_2; short_3; short_4])
      = join (lit " ") (overlap_sentences b ++ rest) /\
    join (lit " ") (overlap_sentences b)
      `suffix_of` content (chunk_of fallback_service 0 0 [short_1; short_2; short_3]) /\
    (join (lit " ") (overlap_sentences b) ++ lit " ")
      `prefix_of` content (chunk_of fallback_service 0 1 [short_2; short_3; short_4]).
Proof.
  apply (overlap_invariant fallback_service short_page 0 10 0);
    vm_compute; reflexivity.
Defined.

(** C5. For a page text that is not blank, the chunks are the sentence
    groups joined by spaces; every group starts with the at most two
    sentences it took over from the group before; and the groups without
    those, one after the other, are the sentences of the splitter, all of
    them and in their order. *)
Theorem chunk_coverage self text page max :
  strip text <> [] ->
  map content (_create_chunks self text page max)
    = map (join (lit " ")) (sentence_groups self text max) /\
  concat (without_overlap (sentence_groups self text max))
    = _split_into_sentences text /\
  forall i b, sentence_groups self text max !! i = Some b ->
    carried (before (sentence_groups self text max) i) `prefix_of` b /\
    (length (carried (before (sentence_groups self text max) i)) <= 2)%nat.
Proof.
  intros Hne. split; [|split].
  - rewrite create_chunks_groups. by apply map_imap.
  - rewrite sentence_groups_eq by done. apply groups_cover.
  - intros i b Hb. rewrite sentence_groups_eq in * by done. split.
    + destruct (groups_link self max _ _ _ Hb) as (rest & _ & ->). by eexists.
    + unfold carried. case_match; [apply overlap_length|simpl; lia].
Qed.

Lemma chunk_coverage_witness :
  map content (_create_chunks fallback_service short_page 0 10)
    = map (join (lit " ")) (sentence_groups fallback_service short_page 10) /\
  concat (without_overlap (sentence_groups fallback_service short_page 10))
    = _split_into_sentences short_page /\
  forall i b, sentence_groups fallback_service short_page 10 !! i = Some b ->
    carried (before (sentence_groups fallback_service short_page 10) i) `prefix_of` b /\
    (length (carried (before (sentence_groups fallback_service short_page 10) i)) <= 2)%nat.
Proof.
  apply (chunk_coverage fallback_service short_page 0 10).
  vm_compute. discriminate.
Defined.

(** The second end-to-end example of the specification: sentences that
    fit one by one and exceed a budget of 10 tokens after the third. *)
Example create_chunks_short_page :
  _create_chunks fallback_service short_page 0 10
  = [ chunk_of fallback_service 0 0 [short_1; short_2; short_3];
      chunk_of fallback_service 0 1 [short_2; short_3; short_4] ].
Proof. vm_compute. reflexivity. Qed.

End Chunker.

(** ** The file-name sanitiser *)

Module Sanitizer.
Import Text PDFService Normal Names TextFacts.

Lemma scrub_all (s : str) :
  foldl (fun name char => replace char (lit "_") name) s dangerous_chars
  = map scrub s.
Proof.
  unfold dangerous_chars. simpl. change (lit "_") with ["_"%char].
  by rewrite !replace_single, !map_map.
Qed.

Lemma dangerous_scrub c : dangerous (scrub c) = false.
Proof. by destruct c as [[] [] [] [] [] [] [] []]. Qed.


Example sanitize_traversal :
  _sanitize_filename (lit "../../etc/pa<ss>wd") = lit "pa_ss_wd.pdf".
Proof. vm_compute. reflexivity. Qed.

End Sanitizer.

(** ** Context assembly *)

Module Retrieval.
Import Text World PDFService RAGService Traces Examples.

Lemma sum_from l : forall a, foldl Z.add a l = a + sum l.
Proof.
  unfold sum. induction l as [|x l IH]; intros a; simpl; [lia|].
  rewrite (IH (a + x)), (IH (0 + x)). lia.
Qed.

Lemma sum_cons x l : sum (x :: l) = x + sum l.
Proof. unfold sum at 1. simpl. rewrite sum_from. lia. Qed.

Lemma tokens_to_cons m r results :
  tokens_to (S m) (r :: results) = r_tokens r + tokens_to m results.
Proof. unfold tokens_to. simpl. apply sum_cons. Qed.

(** The loop takes a prefix of the results: every step into it stays
    within the budget, and the result after it, if any, would not. *)
Lemma gather_prefix max_tokens results : forall parts cur,
  exists n, (n <= length results)%nat /\
    gather max_tokens results parts cur
      = (parts ++ map context_part (take n results), cur + tokens_to n results) /\
    (forall m, (1 <= m <= n)%nat -> cur + tokens_to m results <= max_tokens) /\
    (forall r, results !! n = Some r ->
       cur + tokens_to n results + r_tokens r > max_tokens).
Proof.
  induction results as [|r results IH]; intros parts cur.
  - exists 0%nat. simpl. rewrite app_nil_r. unfold tokens_to. simpl.
    repeat split; try done; try lia. f_equal. unfold sum. simpl. lia.
  - simpl. destruct (cur + r_tokens r >? max_tokens) eqn:E.
    + exists 0%nat. simpl. rewrite app_nil_r. unfold tokens_to, sum. simpl.
      split; [lia|]. split; [f_equal; lia|]. split; [lia|].
      intros ? [= <-]. lia.
    + destruct (IH (parts ++ [context_part r]) (cur + r_tokens r))
        as (n & Hn & -> & Hle & Hgt).
      exists (S n). split; [simpl; lia|]. rewrite tokens_to_cons. split.
      * simpl. rewrite <- app_assoc. simpl. f_equal. lia.
      * split.
        -- intros [|m] Hm; [lia|]. rewrite tokens_to_cons.
           destruct m as [|m].
           ++ unfold tokens_to, sum. simpl. lia.
           ++ specialize (Hle (S m)). lia.
        -- intros r' Hr'. simpl in Hr'. specialize (Hgt r' Hr'). lia.
Qed.

Lemma get_relevant_context_results env self query max_tokens filename t :
  (get_relevant_context env self query max_tokens filename t).1
  = if bool_decide ((search env self query 20 filename t).1 = []) then []
    else join [nl; nl]
           (gather max_tokens (search env self query 20 filename t).1 [] 0).1.
Proof.
  unfold get_relevant_context, bind.
  destruct (search env self query 20 filename t) as [results t']. simpl.
  case_bool_decide; [done|]. by destruct (gather max_tokens results [] 0).
Qed.

(** [search] returns results of the provider, in the provider's order. *)
Lemma search_order env self query top_k filename t :
  (search env self query top_k filename t).1 = []
  \/ exists objects,
       near_text env (t ++ [CollectionsGet (class_name self)]) query (top_k * 3)
         = Some objects /\
       (search env self query top_k filename t).1 `sublist_of` map to_result objects.
Proof.
  unfold search, bind, call, ret. simpl.
  destruct (collections_get env t (class_name self)); [|by left]. simpl.
  destruct (near_text env _ query (top_k * 3)) as [objects|]; [|by left].
  right. exists objects. split; [done|].
  assert (forall l : list SearchResult, slice_to_Z top_k l `sublist_of` l) as Hs.
  { intros l. unfold slice_to_Z. destruct (0 <=? top_k); apply sublist_take. }
  destruct filename as [[|c f]|]; simpl; try apply Hs.
  etrans; [apply Hs|]. apply sublist_filter.
Qed.

(** C2. For a token budget that is not negative, the context is the first
    [n] results of the search, in their order, each as its content behind
    the prefix [[Page p] ] with its page number [p], joined by blank lines. The tokens of every prefix up to [n] are within
    the budget, and the result after the [n]-th, if there is one, would
    exceed it; no result is cut. The context is empty when there are no
    results and when the first result alone exceeds the budget. *)
Theorem context_within_budget env self query max_tokens filename t :
  0 <= max_tokens ->
  exists n,
    (n <= length (search env self query 20 filename t).1)%nat /\
    (get_relevant_context env self query max_tokens filename t).1
      = join [nl; nl]
          (map (fun result =>
                  lit "[Page " ++ of_Z (r_page_number result) ++ lit "] "
                  ++ r_content result)
               (take n (search env self query 20 filename t).1)) /\
    (forall m, (m <= n)%nat ->
       tokens_to m (search env self query 20 filename t).1 <= max_tokens) /\
    (forall r, (search env self query 20 filename t).1 !! n = Some r ->
       tokens_to n (search env self query 20 filename t).1 + r_tokens r > max_tokens) /\
    ((search env self query 20 filename t).1 = [] ->
       (get_relevant_context env self query max_tokens filename t).1 = []) /\
    (forall r rest, (search env self query 20 filename t).1 = r :: rest ->
       r_tokens r > max_tokens ->
       (get_relevant_context env self query max_tokens filename t).1 = []).
Proof.
  intros Hmax. rewrite get_relevant_context_results.
  generalize (search env self query 20 filename t).1. intros results.
  destruct (gather_prefix max_tokens results [] 0) as (n & Hn & Hg & Hle & Hgt).
  rewrite Hg. simpl.
  case_bool_decide as E.
  { subst results. exists 0%nat. repeat split; try done.
    intros m Hm. replace m with 0%nat by lia. unfold tokens_to, sum. simpl. lia. }
  exists n. split; [done|]. split; [done|]. split; [|split; [|split]].
  - intros [|m] Hm.
    + unfold tokens_to, sum. simpl. lia.
    + specialize (Hle (S m)). lia.
  - intros r Hr. specialize (Hgt r Hr). lia.
  - done.
  - intros r rest -> Hr. destruct n as [|n]; [done|].
    specialize (Hle 1%nat). rewrite tokens_to_cons in Hle.
    unfold tokens_to, sum in Hle. simpl in Hle. lia.
Qed.

Lemma context_within_budget_witness :
  exists n,
    (n <= length (search five_hits_env zebra_index zebra_question 20 None []).1)%nat /\
    (get_relevant_context five_hits_env zebra_index zebra_question 50 None []).1
      = join [nl; nl]
          (map (fun result =>
                  lit "[Page " ++ of_Z (r_page_number result) ++ lit "] "
                  ++ r_content result)
             (take n (search five_hits_env zebra_index zebra_question 20 None []).1)) /\
    (forall m, (m <= n)%nat ->
       tokens_to m (search five_hits_env zebra_index zebra_question 20 None []).1 <= 50) /\
    (forall r,
       (search five_hits_env zebra_index zebra_question 20 None []).1 !! n = Some r ->
       tokens_to n (search five_hits_env zebra_index zebra_question 20 None []).1
         + r_tokens r > 50) /\
    ((search five_hits_env zebra_index zebra_question 20 None []).1 = [] ->
       (get_relevant_context five_hits_env zebra_index zebra_question 50 None []).1 = []) /\
    (forall r rest,
       (search five_hits_env zebra_index zebra_question 20 None []).1 = r :: rest ->
       r_tokens r > 50 ->
       (get_relevant_context five_hits_env zebra_index zebra_question 50 None []).1 = []).
Proof.
  apply (context_within_budget five_hits_env zebra_index zebra_question 50 None []).
  lia.
Defined.

(** The fourth end-to-end example of the specification: a budget of 50
    tokens and five candidates of 20 tokens give two candidates. *)
Example two_of_five :
  (get_relevant_context five_hits_env zebra_index zebra_question 50 None []).1
  = lit "[Page 0] Zebras graze." ++ [nl; nl] ++ lit "[Page 1] Zebras roam.".
Proof. vm_compute. reflexivity. Qed.

End Retrieval.

(** ** Mode selection and the chat turn *)

Module Chat.
Import Text World PDFService RAGService ChatService Traces Examples.
Local Open Scope world_scope.

(** *** What a computation may request *)

Section Emits.
Variable P : request -> Prop.

Lemma emits_ret {A} (a : A) : emits P (ret a).
Proof. intros t. exists []. by rewrite app_nil_r. Qed.

Lemma emits_call {A} req (answer : trace -> A) : P req -> emits P (call req answer).
Proof. intros H t. exists [req]. split; [done|]. by apply Forall_singleton. Qed.

Lemma emits_bind {A B} (m : M A) (k : A -> M B) :
  emits P m -> (forall a, emits P (k a)) -> emits P (bind m k).
Proof.
  intros Hm Hk t. unfold bind. destruct (Hm t) as (a1 & E1 & H1).
  destruct (m t) as [a t1]. simpl in E1. subst t1.
  destruct (Hk a (t ++ a1)) as (a2 & E2 & H2).
  exists (a1 ++ a2). rewrite E2, app_assoc. split; [done|]. by apply Forall_app.
Qed.

Lemma emits_bind_ret {A B} (a : A) (k : A -> M B) :
  emits P (k a) -> emits P (bind (ret a) k).
Proof. intros H t. apply H. Qed.
End Emits.

Section Service.
Variable env : Env.

Lemma search_emits self query top_k filename :
  emits (fun req => ~ indexing req) (search env self query top_k filename).
Proof.
  unfold search. apply emits_bind; [apply emits_call; tauto|].
  intros [|]; [|apply emits_ret].
  apply emits_bind; [apply emits_call; tauto|].
  intros [objects|]; [|apply emits_ret].
  destruct filename as [[|c f]|]; apply emits_ret.
Qed.

Lemma get_relevant_context_emits self query max_tokens filename :
  emits (fun req => ~ indexing req)
    (get_relevant_context env self query max_tokens filename).
Proof.
  unfold get_relevant_context. apply emits_bind; [apply search_emits|].
  intros results. case_bool_decide; [apply emits_ret|].
  destruct (gather _ _ _ _). apply emits_ret.
Qed.

Lemma conclude_emits (P : request -> Prop) self message history response :
  P Now -> emits P (conclude env self message history response).
Proof.
  intros HP. unfold conclude. destruct response as [response|]; [|apply emits_ret].
  destruct (choices response) as [|ai rest]; [apply emits_ret|].
  apply emits_bind; [by apply emits_call|]. intros tu.
  apply emits_bind; [by apply emits_call|]. intros ta.
  destruct ai as [ai|]; apply emits_ret.
Qed.

(** A chat turn never writes to the vector store. *)
Lemma chat_emits self message history :
  emits (fun req => ~ indexing req) (chat env self message history).
Proof.
  unfold chat. apply emits_bind.
  - unfold relevant_context_of. destruct (use_rag self).
    + apply get_relevant_context_emits.
    + destruct (truthy _); apply emits_ret.
  - intros ctx. apply emits_bind; [apply emits_call; tauto|]. intros response.
    apply conclude_emits. tauto.
Qed.

Lemma relevant_context_full self message :
  use_rag self = false ->
  relevant_context_of env self message
  = ret (slice_to 5000 (or_empty (pdf_context self))).
Proof.
  intros H. unfold relevant_context_of. rewrite H.
  by destruct (pdf_context self) as [[|c s]|].
Qed.

(** In full-context mode a chat turn asks for the completion and the time,
    and the completion gets the first 5000 characters of the document. *)
Lemma chat_emits_full_context self message history :
  use_rag self = false ->
  emits (full_context_request self) (chat env self message history).
Proof.
  intros Hrag. unfold chat. rewrite relevant_context_full by done.
  apply emits_bind_ret.
  apply emits_bind; [by apply emits_call|]. intros response.
  by apply conclude_emits.
Qed.

Lemma chat_turns_emits P self turns :
  (forall message history, emits P (chat env self message history)) ->
  emits P (chat_turns env self turns).
Proof.
  intros H. induction turns as [|[message history] turns IH]; simpl; [apply emits_ret|].
  apply emits_bind; [done|]. intros a. apply emits_bind; [done|]. intros rest.
  apply emits_ret.
Qed.

(** In full-context mode the system message carries the first 5000
    characters of the document as the relevant content, with no notice. *)
Lemma full_context_prompt self :
  truthy (pdf_context self) = true ->
  create_system_prompt self (slice_to 5000 (or_empty (pdf_context self)))
  = base_prompt ++ [nl; nl] ++ lit "Relevant PDF Content:" ++ [nl]
    ++ slice_to 5000 (or_empty (pdf_context self)).
Proof.
  intros H. unfold create_system_prompt.
  by destruct (pdf_context self) as [[|c s]|].
Qed.

(** C3. After an upload, retrieval mode is on exactly when the document
    has more than 5 chunks and the embeddings were stored. Whatever chat
    turns follow, none of them writes to the vector store, so a failed
    indexing is not tried again; and when retrieval mode is off, every
    turn only asks for the completion, on the first 5000 characters of the
    document, and for the time. *)
Theorem mode_selection self pdf_text chunks filename t :
  (use_rag (set_pdf_context env self pdf_text chunks filename t).1 = true <->
     (5 < length (or_empty chunks))%nat /\
     (create_embeddings env (rag_service self) (or_empty chunks) filename t).1 = true) /\
  forall turns, exists added,
    (chat_turns env (set_pdf_context env self pdf_text chunks filename t).1 turns
       (set_pdf_context env self pdf_text chunks filename t).2).2
      = (set_pdf_context env self pdf_text chunks filename t).2 ++ added /\
    Forall (fun req => ~ indexing req) added /\
    (use_rag (set_pdf_context env self pdf_text chunks filename t).1 = false ->
     Forall (full_context_request (set_pdf_context env self pdf_text chunks filename t).1)
       added).
Proof.
  split.
  - unfold set_pdf_context, bind. simpl.
    destruct (truthy chunks) eqn:Et; simpl.
    + destruct (5 <? length (or_empty chunks))%nat eqn:E5.
      * apply Nat.ltb_lt in E5.
        destruct (create_embeddings env (rag_service self) (or_empty chunks) filename t)
          as [[|] t'];
          simpl; split; try done; try tauto.
      * apply Nat.ltb_ge in E5. simpl. split; [done|]. lia.
    + split; [done|]. destruct chunks as [[|c l]|]; simpl in *; try done; lia.
  - intros turns.
    destruct (set_pdf_context env self pdf_text chunks filename t) as [self' t'].
    simpl.
    destruct (chat_turns_emits (fun req => ~ indexing req) self' turns
                (chat_emits self') t')
      as (added & E & H).
    exists added. split; [done|]. split; [done|]. intros Hrag.
    destruct (chat_turns_emits (full_context_request self') self' turns
                (fun m h => chat_emits_full_context self' m h Hrag) t')
      as (added' & E' & H').
    rewrite E in E'. by apply app_inv_head in E' as ->.
Qed.

(** C8, as the code has it, for a loaded document. [create_system_prompt]
    adds the preview of at most 4000 characters, with the notice exactly
    when the document is longer, when it is given an empty context and
    retrieval mode is off. In retrieval mode, a chat turn whose retrieval
    yields nothing sends the fixed instructions alone. *)
Theorem system_message_without_retrieval self message history t :
  truthy (pdf_context self) = true ->
  (use_rag self = false ->
   create_system_prompt self []
   = base_prompt ++ [nl; nl] ++ lit "PDF Content:" ++ [nl]
     ++ slice_to 4000 (or_empty (pdf_context self))
     ++ (if (4000 <? length (or_empty (pdf_context self)))%nat
         then preview_notice else [])) /\
  (use_rag self = true ->
   (get_relevant_context env (rag_service self) message 5000
      (current_filename self) t).1 = [] ->
   exists more,
     (chat env self message history t).2
     = (get_relevant_context env (rag_service self) message 5000
          (current_filename self) t).2
       ++ CompletionsCreate (model self)
            (build_messages base_prompt message history) (max_tokens self)
            (temperature self)
          :: more).
Proof.
  intros Hdoc. split.
  - intros Hrag. unfold create_system_prompt. rewrite Hdoc, Hrag.
    rewrite bool_decide_eq_true_2 by done. cbn [negb andb].
    destruct (4000 <? _)%nat.
    + by rewrite <- !app_assoc.
    + by rewrite app_nil_r.
  - intros Hrag Hctx. unfold chat, relevant_context_of. rewrite Hrag.
    unfold bind at 1.
    destruct (get_relevant_context env (rag_service self) message 5000
                (current_filename self) t) as [ctx t1].
    simpl in Hctx. subst ctx. simpl.
    assert (create_system_prompt self [] = base_prompt) as ->.
    { unfold create_system_prompt. by rewrite Hrag, andb_false_r. }
    unfold bind, call.
    destruct (conclude_emits (fun _ => True) self message history
                (completions_create env t1 (model self)
                   (build_messages base_prompt message history) (max_tokens self)
                   (temperature self)) I
                (t1 ++ [CompletionsCreate (model self)
                          (build_messages base_prompt message history)
                          (max_tokens self) (temperature self)]))
      as (more & -> & _).
    exists more. by rewrite <- app_assoc.
Qed.

(** C9. When the language model call raises, [chat] raises, and so it
    does when the answer has no choice or a first choice without a text.
    Whenever [chat] raises, the list passed as history is as it was. When
    the language model answers with a text, [chat] returns: the response is
    that text, and the history returned is the one passed with two turns
    appended, the user's message and then the reply; the list passed holds
    the same when it was not empty. No other history is ever returned. *)
Theorem chat_history self message history t :
  (completions_create env (relevant_context_of env self message t).2 (model self)
     (build_messages
        (create_system_prompt self (relevant_context_of env self message t).1)
        message history)
     (max_tokens self) (temperature self) = None ->
   result (chat env self message history t).1 = Raised) /\
  (forall c,
     completions_create env (relevant_context_of env self message t).2 (model self)
       (build_messages
          (create_system_prompt self (relevant_context_of env self message t).1)
          message history)
       (max_tokens self) (temperature self) = Some c ->
     choices c = [] \/ (exists rest, choices c = None :: rest) ->
     result (chat env self message history t).1 = Raised) /\
  (result (chat env self message history t).1 = Raised ->
   history_object (chat env self message history t).1 = history) /\
  (forall c text rest,
     completions_create env (relevant_context_of env self message t).2 (model self)
       (build_messages
          (create_system_prompt self (relevant_context_of env self message t).1)
          message history)
       (max_tokens self) (temperature self) = Some c ->
     choices c = Some text :: rest ->
     exists user_time assistant_time,
       result (chat env self message history t).1
       = Returned
           {| response := text;
              conversation_history :=
                or_empty history
                ++ [ {| role := lit "user"; content := message;
                        timestamp := user_time |};
                     {| role := lit "assistant"; content := text;
                        timestamp := assistant_time |} ];
              tokens_used := default 0 (usage c);
              rag_used := use_rag self |}) /\
  (forall r, result (chat env self message history t).1 = Returned r ->
     (exists user_time assistant_time,
        conversation_history r
        = or_empty history
          ++ [ {| role := lit "user"; content := message; timestamp := user_time |};
               {| role := lit "assistant"; content := response r;
                  timestamp := assistant_time |} ]) /\
     history_object (chat env self message history t).1
     = if truthy history then Some (conversation_history r) else history).
Proof.
  unfold chat, bind, call.
  destruct (relevant_context_of env self message t) as [ctx t1]. cbn [fst snd].
  destruct (completions_create env t1 _ _ _ _) as [c|]; cbn [fst snd].
  2: { split; [done|]. split; [done|]. split; [done|]. by split. }
  split; [done|]. unfold conclude, bind, call, ret.
  destruct (choices c) as [|[ai|] rest] eqn:Ec; cbn [fst snd result history_object].
  - split; [done|]. split; [done|]. split; [|done].
    intros ? ? ? [= <-]. by rewrite Ec.
  - split; [|split; [done|split]].
    + intros ? [= <-] [H|[? H]]; by rewrite Ec in H.
    + intros ? text ? [= <-]. rewrite Ec. intros [= <- <-]. eauto.
    + intros r [= <-]. cbn [conversation_history response]. split; [|done]. eauto.
  - split; [done|]. split; [done|]. split; [|done].
    intros ? ? ? [= <-]. by rewrite Ec.
Qed.

End Service.

(** C8, as stated, fails: a document is loaded, retrieval yields no
    context, and the system message sent to the model is the fixed
    instructions, in which the text of the document does not occur. *)
Lemma preview_counterexample :
  truthy (pdf_context zebra_service) = true /\
  (get_relevant_context quiet_env (rag_service zebra_service) zebra_question 5000
     (current_filename zebra_service) []).1 = [] /\
  (chat quiet_env zebra_service zebra_question None []).2
  = [ CollectionsGet (lit "PDFChunks");
      NearText zebra_question 60;
      CompletionsCreate (lit "gpt-3.5-turbo")
        [ {| m_role := lit "system"; m_content := base_prompt |};
          {| m_role := lit "user"; m_content := zebra_question |} ] 1000
        (QArith_base.Qmake 7 10);
      Now; Now ] /\
  contains (slice_to 4000 (lit "Zebras graze at dawn.")) base_prompt = false.
Proof. vm_compute. done. Qed.

Lemma system_message_witness :
  (use_rag zebra_service = false ->
   create_system_prompt zebra_service []
   = base_prompt ++ [nl; nl] ++ lit "PDF Content:" ++ [nl]
     ++ slice_to 4000 (or_empty (pdf_context zebra_service))
     ++ (if (4000 <? length (or_empty (pdf_context zebra_service)))%nat
         then preview_notice else [])) /\
  (use_rag zebra_service = true ->
   (get_relevant_context quiet_env (rag_service zebra_service) zebra_question 5000
      (current_filename zebra_service) []).1 = [] ->
   exists more,
     (chat quiet_env zebra_service zebra_question None []).2
     = (get_relevant_context quiet_env (rag_service zebra_service) zebra_question 5000
          (current_filename zebra_service) []).2
       ++ CompletionsCreate (model zebra_service)
            (build_messages base_prompt zebra_question None) (max_tokens zebra_service)
            (temperature zebra_service)
          :: more).
Proof.
  apply (system_message_without_retrieval quiet_env zebra_service zebra_question None []).
  reflexivity.
Defined.

End Chat.

(** ** More on the text normaliser *)

Module CleanTextMore.
Import Text Regex PDFService Normal TextFacts RegexFacts CleanText.

Lemma tidy_spaces s : forall b, tidy b s -> Forall (fun c => is_space c = true -> c = " "%char) s.
Proof.
  induction s as [|c s IH]; intros b; simpl; [done|].
  destruct (is_space c) eqn:E.
  - intros (-> & _ & H). constructor; [done|]. by eapply IH.
  - intros H. constructor; [congruence|]. by eapply IH.
Qed.

Lemma tidy_no_double s : forall b, tidy b s -> contains (lit "  ") s = false.
Proof.
  induction s as [|c s IH]; intros b H; [done|].
  cbn [contains]. rewrite (IH (if is_space c then true else false)).
  - rewrite orb_false_r. change (lit "  ") with [" "; " "]%char.
    cbn [startswith]. destruct (Ascii.eqb " " c) eqn:Ec; [|done].
    apply Ascii.eqb_eq in Ec. subst c. simpl in H. destruct H as (_ & _ & H).
    destruct s as [|a s]; [done|]. simpl in H.
    destruct (Ascii.eqb " " a) eqn:Ea; [|done].
    apply Ascii.eqb_eq in Ea. subst a. simpl in H. by destruct H as (_ & ? & _).
  - simpl in H. destruct (is_space c); [tauto|done].
Qed.

Lemma repair_not_mangled c : repair c <> "0"%char /\ repair c <> "|"%char.
Proof. by destruct c as [[] [] [] [] [] [] [] []]. Qed.

Lemma strip_elem c s : c ∈ strip s -> c ∈ s.
Proof.
  intros H. destruct (strip_split s) as (l & r & Hs & _). rewrite Hs.
  apply elem_of_app. right. apply elem_of_app. by left.
Qed.

Lemma strip_length s : (length (strip s) <= length s)%nat.
Proof.
  destruct (strip_split s) as (l & r & Hs & _). rewrite Hs at 2.
  rewrite !length_app. lia.
Qed.

Lemma squeeze_length s : forall b, (length (squeeze b s) <= length s)%nat.
Proof.
  induction s as [|c s IH]; intros b; simpl; [done|].
  pose proof (IH true). pose proof (IH false).
  destruct (is_space c); [destruct b|]; simpl; lia.
Qed.

Lemma clean_text_tidy x :
  tidy false (_clean_text x) /\ strip (_clean_text x) = _clean_text x.
Proof.
  destruct (clean_text_cases x) as [[_ ->]|[_ ->]]; [done|]. split.
  - eapply tidy_strip, tidy_repair, squeeze_tidy.
  - apply strip_idem.
Qed.

(** X1. In the cleaned text every whitespace character is a space, no
    two spaces follow each other, and there is no whitespace at either
    end. *)
Theorem clean_text_shape x :
  Forall (fun c => is_space c = true -> c = " "%char) (_clean_text x) /\
  contains (lit "  ") (_clean_text x) = false /\
  strip (_clean_text x) = _clean_text x.
Proof.
  destruct (clean_text_tidy x) as [Ht Hs].
  split; [by eapply tidy_spaces|]. split; [by eapply tidy_no_double|done].
Qed.

(** X2. The repairs are applied to every character: the cleaned text
    holds no digit zero and no vertical bar, wherever they stood in the
    text, inside a number as well. *)
Theorem clean_text_mangles_zero x :
  Forall (fun c => c <> "0"%char /\ c <> "|"%char) (_clean_text x).
Proof.
  apply Forall_forall. intros c.
  destruct (clean_text_cases x) as [[_ ->]|[_ ->]].
  - by intros ?%elem_of_nil.
  - intros H%strip_elem. apply list_elem_of_In, in_map_iff in H as (a & <- & _).
    apply repair_not_mangled.
Qed.

(** X3. Cleaning never makes a text longer. *)
Theorem clean_text_length x : (length (_clean_text x) <= length x)%nat.
Proof.
  destruct (clean_text_cases x) as [[_ ->]|[_ ->]]; [simpl; lia|].
  etrans; [apply strip_length|]. rewrite length_map. apply squeeze_length.
Qed.

Abbreviation digits := (Forall (fun c => is_digit c = true)).

Lemma blank_spaces s : strip s = [] <-> spaces s.
Proof.
  split.
  - intros H. destruct (strip_split s) as (l & r & Hs & Hl & Hr).
    rewrite Hs, H. by apply Forall_app.
  - intros H. unfold strip. assert (lstrip s = []) as ->; [|done].
    induction H as [|c s Hc _ IH]; [done|]. simpl. by rewrite Hc.
Qed.

Lemma squeeze_spaces s : forall b, spaces s -> spaces (squeeze b s).
Proof.
  induction s as [|c s IH]; intros b H; [done|].
  apply Forall_cons in H as [Hc H]. simpl. rewrite Hc.
  destruct b; [by apply IH|]. constructor; [done|by apply IH].
Qed.

Lemma squeeze_spaces_inv s : forall b, spaces (squeeze b s) -> spaces s.
Proof.
  induction s as [|c s IH]; intros b; simpl; [done|].
  destruct (is_space c) eqn:E.
  - destruct b.
    + intros H. constructor; [done|by eapply IH].
    + intros [_ H]%Forall_cons. constructor; [done|by eapply IH].
  - intros [Hc _]%Forall_cons. congruence.
Qed.

Lemma squeeze_digits d s : forall b,
  digits d -> squeeze b (d ++ s) = d ++ squeeze (match d with [] => b | _ => false end) s.
Proof.
  induction d as [|c d IH]; intros b H; [done|].
  apply Forall_cons in H as [Hc H]. simpl. rewrite (digit_not_space _ Hc).
  rewrite IH by done. by destruct d.
Qed.

Lemma squeeze_lead w s : forall b,
  spaces w -> exists w' b', squeeze b (w ++ s) = w' ++ squeeze b' s /\ spaces w'.
Proof.
  induction w as [|c w IH]; intros b H.
  - by exists [], b.
  - apply Forall_cons in H as [Hc H]. simpl. rewrite Hc.
    destruct (IH true H) as (w' & b' & -> & Hw').
    destruct b.
    + by exists w', b'.
    + exists (" "%char :: w'), b'. split; [done|]. by constructor.
Qed.

Lemma numeric_squeeze x : numeric_line x -> numeric_line (squeeze false x).
Proof.
  intros (w1 & d & w2 & -> & Hw1 & Hd0 & Hd & Hw2).
  destruct (squeeze_lead w1 (d ++ w2) false Hw1) as (w1' & b' & -> & Hw1').
  rewrite squeeze_digits by done.
  exists w1', d, (squeeze (match d with [] => b' | _ => false end) w2).
  repeat split; try done. by apply squeeze_spaces.
Qed.

Lemma squeeze_tail_inv x : forall d w,
  digits d -> spaces w -> squeeze false x = d ++ w ->
  exists v, x = d ++ v /\ spaces v.
Proof.
  induction x as [|a x IH]; intros d w Hd Hw; simpl.
  - intros H. symmetry in H. apply app_eq_nil in H as [-> ->]. by exists [].
  - destruct (is_space a) eqn:Ea.
    + destruct d as [|c d]; simpl.
      * intros H. exists (a :: x). split; [done|].
        constructor; [done|]. apply (squeeze_spaces_inv _ true).
        destruct w as [|c w]; [done|]. injection H as _ ->.
        by apply Forall_cons in Hw as [_ ?].
      * intros [= <- _]. by apply Forall_cons in Hd as [? _].
    + destruct d as [|c d]; simpl.
      * intros H. destruct w as [|c w]; [done|]. injection H as <- _.
        apply Forall_cons in Hw as [? _]. congruence.
      * intros [= <- H]. apply Forall_cons in Hd as [? Hd].
        destruct (IH d w Hd Hw H) as (v & -> & Hv). by exists v.
Qed.

Lemma squeeze_numeric_inv x : forall b w1 d w2,
  spaces w1 -> d <> [] -> digits d -> spaces w2 ->
  squeeze b x = w1 ++ d ++ w2 ->
  exists v1 v2, x = v1 ++ d ++ v2 /\ spaces v1 /\ spaces v2.
Proof.
  induction x as [|a x IH]; intros b w1 d w2 Hw1 Hd0 Hd Hw2; simpl.
  - intros H. symmetry in H. apply app_eq_nil in H as [_ H].
    by apply app_eq_nil in H as [? _].
  - assert (forall b', squeeze b' x = w1 ++ d ++ w2 -> is_space a = true ->
              exists v1 v2, a :: x = v1 ++ d ++ v2 /\ spaces v1 /\ spaces v2) as Hskip.
    { intros b' H Ea. destruct (IH b' w1 d w2 Hw1 Hd0 Hd Hw2 H) as (v1 & v2 & -> & ? & ?).
      exists (a :: v1), v2. split; [done|]. split; [by constructor|done]. }
    destruct (is_space a) eqn:Ea.
    + destruct b; [by eauto|].
      destruct w1 as [|c w1]; simpl.
      * destruct d as [|c d]; [done|]. simpl. intros [= <- _].
        apply Forall_cons in Hd as [? _]. done.
      * intros [= _ H]. apply Forall_cons in Hw1 as [_ Hw1].
        destruct (IH true w1 d w2 Hw1 Hd0 Hd Hw2 H) as (v1 & v2 & -> & ? & ?).
        exists (a :: v1), v2. split; [done|]. split; [by constructor|done].
    + destruct w1 as [|c w1]; simpl.
      * destruct d as [|c d]; [done|]. simpl. intros [= <- H].
        apply Forall_cons in Hd as [? Hd].
        destruct (squeeze_tail_inv x d w2 Hd Hw2 H) as (v & -> & Hv).
        exists [], v. split; [done|]. split; [done|done].
      * intros [= <- _]. apply Forall_cons in Hw1 as [? _]. congruence.
Qed.

Lemma squeeze_numeric x : numeric_line (squeeze false x) -> numeric_line x.
Proof.
  intros (w1 & d & w2 & H & Hw1 & Hd0 & Hd & Hw2).
  destruct (squeeze_numeric_inv x false w1 d w2 Hw1 Hd0 Hd Hw2 H)
    as (v1 & v2 & -> & ? & ?).
  by exists v1, d, v2.
Qed.

Lemma numeric_not_blank x : numeric_line x -> ~ spaces x.
Proof.
  intros (w1 & d & w2 & -> & _ & Hd0 & Hd & _) H.
  apply Forall_app in H as [_ H]. apply Forall_app in H as [H _].
  destruct d as [|c d]; [done|].
  apply Forall_cons in H as [? _]. apply Forall_cons in Hd as [?%digit_not_space _].
  congruence.
Qed.

(** X4. The cleaned text is empty in two cases only: the text is blank,
    or it is a number as a whole, with whitespace around it at most. *)
Theorem clean_text_empty x :
  _clean_text x = [] <-> strip x = [] \/ numeric_line x.
Proof.
  destruct (clean_text_cases x) as [[Hn ->]|[Hn ->]].
  - split; [|done]. intros _. right. by apply squeeze_numeric.
  - rewrite (strip_map repair repair_space). split.
    + intros H. left. apply blank_spaces.
      apply (squeeze_spaces_inv _ false), blank_spaces.
      by destruct (strip (squeeze false x)).
    + intros [H|H].
      * apply blank_spaces, (squeeze_spaces _ false), blank_spaces in H.
        by rewrite H.
      * by apply numeric_squeeze in H.
Qed.

End CleanTextMore.

(** ** The sentence splitter *)

Module Sentences.
Import Text Regex PDFService Normal Pages TextFacts RegexFacts CleanText CleanTextMore.

Lemma match_sentence_end prev s :
  match_here re_sentence_end prev s
  = match prev, s with
    | Some p, c :: s' =>
        if is_terminal p && is_space c then Some (S (lead is_space s')) else None
    | _, _ => None
    end.
Proof.
  unfold re_sentence_end. cbn [match_here]. destruct prev as [p|]; [|by destruct s].
  destruct (is_terminal p); [|by destruct s].
  unfold plus. destruct s as [|c s]; [done|].
  simpl. destruct (is_space c); [|done].
  by rewrite star_total.
Qed.

(** The pieces of a split are made of the characters of the text. *)
Lemma split_from_chars (P : ascii -> Prop) re s : forall skip prev cur,
  Forall P cur -> Forall P s -> Forall (Forall P) (split_from re skip prev cur s).
Proof.
  induction s as [|c s IH]; intros skip prev cur Hcur Hs.
  - simpl. destruct skip; [destruct (match_here re prev [])|]; repeat constructor; done.
  - apply Forall_cons in Hs as [Hc Hs]. cbn [split_from].
    destruct skip as [|k]; [|by apply IH].
    destruct (match_here re prev (c :: s)) as [[|n]|].
    + constructor; [done|]. apply IH; [by constructor|done].
    + constructor; [done|]. by apply IH.
    + apply IH; [|done]. apply Forall_app. split; [done|by constructor].
Qed.

Lemma blank_strip s : Forall (fun c => is_space c = true) s -> strip s = [].
Proof.
  intros H. unfold strip. assert (lstrip s = []) as ->; [|done].
  induction H as [|c s Hc _ IH]; [done|]. simpl. by rewrite Hc.
Qed.

Lemma strip_blank s : strip s = [] -> Forall (fun c => is_space c = true) s.
Proof.
  intros H. destruct (strip_split s) as (l & r & Hs & Hl & Hr).
  rewrite Hs, H. by apply Forall_app.
Qed.

Lemma sentences_stripped text :
  Forall (fun s => s <> [] /\ strip s = s) (_split_into_sentences text).
Proof.
  unfold _split_into_sentences.
  apply Forall_map. apply Forall_forall. intros s Hs.
  apply list_elem_of_In, list_elem_of_In, list_elem_of_filter in Hs as [Hs _].
  split; [done|apply strip_idem].
Qed.

Lemma sentences_of_blank text : strip text = [] -> _split_into_sentences text = [].
Proof.
  unfold _split_into_sentences. intros H%strip_blank.
  pose proof (split_from_chars _ re_sentence_end text 0 None []
                (Forall_nil_2 _) H) as Hp.
  fold (split re_sentence_end text) in Hp.
  induction Hp as [|p ps Hp _ IH]; [done|].
  rewrite filter_cons_False; [done|]. intros Hne. by apply Hne, blank_strip.
Qed.

Lemma solid_app a b : solid (a ++ b) = solid a ++ solid b.
Proof. apply filter_app. Qed.

Lemma solid_blank s : Forall (fun c => is_space c = true) s -> solid s = [].
Proof.
  induction 1 as [|c s Hc _ IH]; [done|]. unfold solid.
  rewrite filter_cons_False by congruence. apply IH.
Qed.

Lemma solid_strip s : solid (strip s) = solid s.
Proof.
  destruct (strip_split s) as (l & r & Hs & Hl & Hr). rewrite Hs at 2.
  by rewrite !solid_app, (solid_blank l), (solid_blank r), app_nil_r.
Qed.

Lemma lead_spaces s : Forall (fun c => is_space c = true) (take (lead is_space s) s).
Proof.
  induction s as [|c s IH]; [done|]. simpl.
  destruct (is_space c) eqn:E; [by constructor|done].
Qed.

(** A match of the pattern only covers whitespace, so the pieces hold
    every other character of the text. *)
Lemma split_from_solid s : forall skip prev cur,
  Forall (fun c => is_space c = true) (take skip s) ->
  solid (concat (split_from re_sentence_end skip prev cur s)) = solid (cur ++ s).
Proof.
  induction s as [|c s IH]; intros skip prev cur Hskip.
  - cbn [split_from]. rewrite match_sentence_end.
    replace (match prev with Some _ | _ => @None nat end) with (@None nat)
      by by destruct prev.
    destruct skip; simpl; by rewrite !app_nil_r.
  - cbn [split_from]. destruct skip as [|k].
    + rewrite match_sentence_end.
      destruct prev as [p|]; [destruct (is_terminal p && is_space c) eqn:E|].
      * apply andb_true_iff in E as [_ Ec]. cbn [concat].
        rewrite solid_app, (IH _ _ _ (lead_spaces s)), !solid_app.
        f_equal. simpl. unfold solid at 2. by rewrite filter_cons_False by congruence.
      * rewrite IH by done. by rewrite <- app_assoc.
      * rewrite IH by done. by rewrite <- app_assoc.
    + simpl in Hskip. apply Forall_cons in Hskip as [Hc Hskip].
      rewrite IH by done. rewrite !solid_app. f_equal.
      unfold solid at 2. by rewrite filter_cons_False by congruence.
Qed.

Lemma sentences_solid text : solid (concat (_split_into_sentences text)) = solid text.
Proof.
  unfold _split_into_sentences, split.
  change (solid text) with (solid ([] ++ text)).
  rewrite <- (split_from_solid text 0 None []) by done.
  generalize (split_from re_sentence_end 0 None [] text). intros ps.
  induction ps as [|p ps IH]; [done|]. cbn [concat]. rewrite solid_app, <- IH.
  destruct (decide (strip p = [])) as [Hp|Hp].
  - rewrite filter_cons_False by (intros H; by apply H).
    by rewrite (solid_blank p) by by apply strip_blank.
  - rewrite filter_cons_True by done. cbn [map concat].
    by rewrite solid_app, solid_strip.
Qed.

(** X5. The splitter drops whitespace and nothing else: the sentences,
    one after the other, hold the characters of the text that are not
    whitespace, all of them and in their order. No sentence is empty or
    has whitespace at an end, and a blank text has no sentences. *)
Theorem sentences_keep_text text :
  solid (concat (_split_into_sentences text)) = solid text /\
  Forall (fun s => s <> [] /\ strip s = s) (_split_into_sentences text) /\
  (strip text = [] -> _split_into_sentences text = []).
Proof.
  split; [apply sentences_solid|].
  split; [apply sentences_stripped|apply sentences_of_blank].
Qed.

Lemma bare_strip p : bare p -> strip p = p.
Proof.
  intros (Hne & Hl & Hr). unfold strip, rstrip.
  rewrite (bare_lstrip p Hl), (bare_lstrip _ Hr). apply reverse_involutive.
Qed.

Lemma strip_bare p : p <> [] -> strip p = p -> bare p.
Proof.
  intros Hne H. split; [done|]. split.
  - rewrite <- H. unfold strip. apply rstrip_bare, lstrip_bare.
  - rewrite <- H at 1. unfold strip, rstrip. rewrite reverse_involutive.
    apply lstrip_bare.
Qed.

Lemma split_from_nonempty re s : forall skip prev cur, split_from re skip prev cur s <> [].
Proof.
  induction s as [|c s IH]; intros skip prev cur; simpl.
  - destruct skip; [destruct (match_here re prev [])|]; done.
  - destruct skip; [|apply IH].
    destruct (match_here re prev (c :: s)) as [[|n]|]; try done.
Qed.

Lemma terminal_not_space p : is_terminal p = true -> is_space p = false.
Proof. by destruct p as [[] [] [] [] [] [] [] []]. Qed.

Lemma starts_bare_lead s : starts_bare s -> lead is_space s = O.
Proof. destruct s as [|c s]; [done|]. simpl. by intros ->. Qed.

Lemma tidy_true_bare s : tidy true s -> starts_bare s /\ tidy false s.
Proof.
  destruct s as [|c s]; [done|]. simpl. destruct (is_space c); [|done].
  by intros (_ & ? & _).
Qed.

(** On text whose whitespace is single spaces, not at the ends, the
    pieces are the text cut at the spaces that follow a sentence end. *)
Lemma split_tidy s : forall prev cur,
  tidy false s ->
  (forall c, prev = Some c -> is_space c = true -> starts_bare s) ->
  (cur <> [] -> last cur = prev) ->
  (cur = [] -> forall c, prev = Some c -> is_space c = true) ->
  starts_bare (cur ++ s) -> starts_bare (reverse (cur ++ s)) -> cur ++ s <> [] ->
  join (lit " ") (split_from re_sentence_end 0 prev cur s) = cur ++ s /\
  Forall bare (split_from re_sentence_end 0 prev cur s).
Proof.
  induction s as [|c s IH]; intros prev cur Ht Hprev Hlast Hnil Hl Hr Hne.
  - cbn [split_from]. rewrite match_sentence_end.
    rewrite app_nil_r in *.
    replace (match prev with Some _ | _ => @None nat end) with (@None nat)
      by by destruct prev.
    split; [done|]. by repeat constructor.
  - cbn [split_from]. rewrite match_sentence_end.
    assert (tidy false s /\ (is_space c = true -> c = " "%char /\ starts_bare s)) as [Hts Hc].
    { simpl in Ht. destruct (is_space c).
      - destruct Ht as (-> & _ & [? ?]%tidy_true_bare). done.
      - done. }
    assert (s <> [] \/ is_space c = false) as Hs.
    { destruct s as [|a s]; [|by left]. right.
      rewrite reverse_app in Hr. simpl in Hr. by destruct (is_space c). }
    destruct prev as [p|];
      [destruct (is_terminal p && is_space c) eqn:E|].
    + apply andb_true_iff in E as [Ep Ec]. destruct (Hc Ec) as [-> Hbs].
      rewrite (starts_bare_lead _ Hbs).
      assert (cur <> []) as Hcur.
      { intros ->. specialize (Hnil eq_refl p eq_refl).
        apply terminal_not_space in Ep. congruence. }
      destruct Hs as [Hs|?]; [|done].
      assert (starts_bare (reverse s)) as Hrs.
      { rewrite reverse_app, reverse_cons in Hr.
        destruct (reverse s) as [|a r] eqn:Er; [|done].
        apply (f_equal reverse) in Er. by rewrite reverse_involutive in Er. }
      destruct (IH (Some " "%char) [] Hts) as [IH1 IH2]; try done.
      { by intros _ ? [= <-]. }
      split.
      * pose proof (split_from_nonempty re_sentence_end s 0 (Some " "%char) []) as Hn.
        destruct (split_from re_sentence_end 0 (Some " "%char) [] s) as [|q qs]; [done|].
        change (join (lit " ") (cur :: q :: qs))
          with (cur ++ lit " " ++ join (lit " ") (q :: qs)).
        by rewrite IH1.
      * constructor; [|done]. split; [done|]. split.
        -- by destruct cur.
        -- specialize (Hlast Hcur). destruct cur as [|a cur] using rev_ind; [done|].
           rewrite last_snoc in Hlast. injection Hlast as ->.
           rewrite reverse_app. simpl. by apply terminal_not_space.
    + replace (cur ++ c :: s) with ((cur ++ [c]) ++ s) in *
        by (by rewrite <- app_assoc).
      apply IH; try done.
      all: try (intros a [= <-] Ha; by apply Hc).
      all: try (intros _; by rewrite last_snoc).
      all: intros H; by apply app_eq_nil in H as [_ ?].
    + replace (cur ++ c :: s) with ((cur ++ [c]) ++ s) in *
        by (by rewrite <- app_assoc).
      apply IH; try done.
      all: try (intros a [= <-] Ha; by apply Hc).
      all: try (intros _; by rewrite last_snoc).
      all: intros H; by apply app_eq_nil in H as [_ ?].
Qed.

Lemma sentences_of_tidy y :
  tidy false y -> strip y = y ->
  join (lit " ") (_split_into_sentences y) = y.
Proof.
  intros Ht Hs. destruct (decide (y = [])) as [->|Hne]; [done|].
  destruct (strip_bare y Hne Hs) as (_ & Hl & Hr).
  destruct (split_tidy y None []) as [Hj Hb]; try done.
  unfold _split_into_sentences, split.
  assert (forall ps, Forall bare ps ->
            map strip (filter (fun s => strip s <> []) ps) = ps) as Hid.
  { intros ps H. induction H as [|p ps Hp _ IH]; [done|].
    rewrite filter_cons_True.
    - simpl. by rewrite IH, bare_strip.
    - rewrite bare_strip by done. by destruct Hp. }
  by rewrite Hid.
Qed.

(** X6. On a cleaned text the splitter loses nothing at all: the
    sentences joined by single spaces are the text again. *)
Theorem sentences_of_clean_text x :
  join (lit " ") (_split_into_sentences (_clean_text x)) = _clean_text x.
Proof. apply sentences_of_tidy; apply CleanTextMore.clean_text_tidy. Qed.

End Sentences.

(** ** More on the chunker *)

Module ChunkerMore.
Import Text Regex PDFService Normal Groups Pages Examples.
Import TextFacts Chunker CleanTextMore Sentences.

Lemma count_tokens_nonneg self s : 0 <= count_tokens self s.
Proof.
  unfold count_tokens. destruct (tokenizer self); [lia|].
  apply Z.div_pos; lia.
Qed.

Lemma tokens_of_nonneg self b : 0 <= tokens_of self b.
Proof.
  induction b as [|s b IH] using rev_ind; [done|].
  rewrite tokens_of_snoc. pose proof (count_tokens_nonneg self s). lia.
Qed.

Lemma join_bare (b : list str) : b <> [] -> Forall bare b -> bare (join (lit " ") b).
Proof.
  intros Hne H. induction H as [|p b Hp Hb IH]; [done|].
  destruct b as [|q b]; [done|].
  change (join (lit " ") (p :: q :: b)) with (p ++ lit " " ++ join (lit " ") (q :: b)).
  destruct Hp as (Hp0 & Hpl & Hpr). destruct IH as (Hj0 & Hjl & Hjr); [done|].
  split; [|split].
  - by destruct p.
  - by destruct p.
  - rewrite !reverse_app.
    destruct (reverse (join (lit " ") (q :: b))) as [|a r] eqn:Er; [|done].
    apply (f_equal reverse) in Er. by rewrite reverse_involutive in Er.
Qed.

Lemma contiguous_Forall {P : str -> Prop} (b ss : list str) :
  contiguous b ss -> Forall P ss -> Forall P b.
Proof.
  intros (pre & post & ->) H. apply Forall_app in H as [_ H].
  by apply Forall_app in H as [H _].
Qed.

Lemma imap_indices {A} (l : list A) :
  imap (fun i _ => Z.of_nat i) l = map Z.of_nat (seq 0 (length l)).
Proof.
  apply list_eq. intros i. rewrite list_lookup_fmap, list_lookup_imap.
  destruct (l !! i) as [x|] eqn:E; simpl.
  - by rewrite lookup_seq_lt by (by eapply lookup_lt_Some).
  - by rewrite lookup_seq_ge by (by apply lookup_ge_None).
Qed.

(** X7. The chunks of a page are numbered 0, 1, 2, ... in the order in
    which they are produced, and each carries the page number given. No
    chunk is empty or has whitespace at an end; its [start_sentence] is
    always 0 and its [end_sentence] is at least 1. *)
Theorem chunk_positions self text page max :
  map chunk_index (_create_chunks self text page max)
  = map Z.of_nat (seq 0 (length (_create_chunks self text page max))) /\
  Forall (fun c =>
            page_number c = page /\
            content c <> [] /\ strip (content c) = content c /\
            metadata c !! "start_sentence"%string = Some 0 /\
            exists n, 1 <= n /\ metadata c !! "end_sentence"%string = Some n)
    (_create_chunks self text page max).
Proof.
  split.
  - rewrite create_chunks_groups, length_imap, <- imap_indices.
    apply list_eq. intros i.
    rewrite list_lookup_fmap, !list_lookup_imap.
    by destruct (_ !! i).
  - apply Forall_lookup. intros i c Hc.
    destruct (chunk_lookup _ _ _ _ _ _ Hc) as (b & Hb & ->).
    split; [done|].
    destruct (sentence_groups_cases self text max) as [E|E]; rewrite E in Hb; [done|].
    pose proof (groups_whole self max (_split_into_sentences text)) as Hw.
    rewrite Forall_lookup in Hw. destruct (Hw _ _ Hb) as [Hne Hct].
    assert (bare (join (lit " ") b)) as Hbare.
    { apply join_bare; [done|]. apply (contiguous_Forall _ _ Hct).
      eapply Forall_impl; [apply sentences_stripped|].
      intros s [? ?]. by apply strip_bare. }
    split; [apply Hbare|]. split; [by apply bare_strip|]. split; [done|].
    exists (Z.of_nat (length b)). split; [|done].
    destruct b; [done|]. simpl. lia.
Qed.

Section Fits.
Variable self : PDFService.
Variable max_tokens : Z.

Lemma run_fits ss :
  tokens_of self ss <= max_tokens ->
  run self max_tokens ss = {| closed := []; opened := ss |}.
Proof.
  induction ss as [|s ss IH] using rev_ind; [done|].
  rewrite tokens_of_snoc. intros H. pose proof (count_tokens_nonneg self s).
  unfold run. rewrite foldl_app. fold (run self max_tokens ss).
  rewrite IH by lia. simpl. unfold regroup. simpl.
  replace (tokens_of self ss + count_tokens self s >? max_tokens) with false by lia.
  done.
Qed.

Lemma run_count ss :
  opened (run self max_tokens ss) <> [] ->
  (length (closed (run self max_tokens ss)) + 1 <= length ss)%nat.
Proof.
  enough ((opened (run self max_tokens ss) = [] -> closed (run self max_tokens ss) = [])
          /\ (opened (run self max_tokens ss) <> [] ->
              (length (closed (run self max_tokens ss)) + 1 <= length ss)%nat))
    as [_ H]; [done|].
  apply (run_ind self max_tokens (fun ss g =>
    (opened g = [] -> closed g = [])
    /\ (opened g <> [] -> (length (closed g) + 1 <= length ss)%nat))); clear ss.
  - done.
  - intros ss g s [_ IH] Hne _. simpl. split.
    + intros H. by apply app_eq_nil in H as [_ ?].
    + intros _. rewrite !length_app. simpl. specialize (IH Hne). lia.
  - intros ss g s [IH0 IH] _. simpl. split.
    + intros H. by apply app_eq_nil in H as [_ ?].
    + intros _. rewrite length_app. simpl.
      destruct (decide (opened g = [])) as [E|E].
      * rewrite (IH0 E). simpl. lia.
      * specialize (IH E). lia.
Qed.

End Fits.

Lemma sentence_groups_always self text max :
  sentence_groups self text max
  = group_sentences self max (_split_into_sentences text).
Proof.
  unfold sentence_groups. case_bool_decide as Hb; [|done].
  by rewrite (sentences_of_blank _ Hb).
Qed.

Lemma create_chunks_fits self text page max :
  tokens_of self (_split_into_sentences text) <= max ->
  _create_chunks self text page max
  = match _split_into_sentences text with
    | [] => []
    | sentences => [chunk_of self page 0 sentences]
    end.
Proof.
  intros Hfit.
  rewrite create_chunks_groups, sentence_groups_always, group_sentences_run.
  rewrite run_fits by done. by destruct (_split_into_sentences text).
Qed.

(** X8. A text whose sentences fit the token budget together gives one
    chunk that holds all of them, and none when it has no sentence. *)
Theorem one_chunk_when_it_fits self text page max :
  tokens_of self (_split_into_sentences text) <= max ->
  _create_chunks self text page max
  = match _split_into_sentences text with
    | [] => []
    | sentences => [chunk_of self page 0 sentences]
    end.
Proof. apply create_chunks_fits. Qed.

Lemma one_chunk_when_it_fits_witness :
  _create_chunks fallback_service page_text 0 1000
  = match _split_into_sentences page_text with
    | [] => []
    | sentences => [chunk_of fallback_service 0 0 sentences]
    end.
Proof.
  apply (one_chunk_when_it_fits fallback_service page_text 0 1000).
  by vm_compute.
Defined.

(** X9. A cleaned page that fits the token budget is one chunk whose
    content is the cleaned page, character for character. *)
Theorem clean_page_is_one_chunk self x page max :
  _clean_text x <> [] ->
  tokens_of self (_split_into_sentences (_clean_text x)) <= max ->
  map content (_create_chunks self (_clean_text x) page max) = [_clean_text x].
Proof.
  intros Hne Hfit. rewrite create_chunks_fits by done.
  destruct (clean_text_tidy x) as [Ht Hs].
  pose proof (sentences_of_tidy _ Ht Hs) as Hj.
  destruct (_split_into_sentences (_clean_text x)) as [|s ss]; [done|].
  simpl. by rewrite <- Hj.
Qed.

Lemma clean_page_is_one_chunk_witness :
  map content (_create_chunks fallback_service (_clean_text page_with_number) 0 1000)
  = [_clean_text page_with_number].
Proof.
  apply (clean_page_is_one_chunk fallback_service page_with_number 0 1000).
  - by vm_compute.
  - by vm_compute.
Defined.

(** X10. There are never more chunks than sentences, and there is a
    chunk exactly when there is a sentence. *)
Theorem chunk_count self text page max :
  (length (_create_chunks self text page max)
   <= length (_split_into_sentences text))%nat /\
  (_create_chunks self text page max = [] <-> _split_into_sentences text = []).
Proof.
  rewrite create_chunks_groups, length_imap.
  rewrite sentence_groups_always, group_sentences_run.
  pose proof (run_count self max (_split_into_sentences text)) as Hc.
  pose proof (opened_nonempty self max (_split_into_sentences text)) as Ho.
  destruct (_split_into_sentences text) as [|s ss]; [done|].
  specialize (Hc (Ho ltac:(done))).
  split.
  - rewrite length_app. simpl. simpl in Hc. lia.
  - split; [|done]. intros H. apply (f_equal length) in H.
    rewrite length_imap, length_app in H. simpl in H. lia.
Qed.

End ChunkerMore.

(** ** Documents: extraction and processing *)

Module DocumentFacts.
Import Text Regex PDFService Normal Groups Documents Pages.
Import TextFacts Chunker Sentences ChunkerMore.

Lemma read_pages_closed self pages : forall (n : nat) all_text all_chunks,
  read_pages self (Z.of_nat n) pages all_text all_chunks
  = (all_text ++ map _clean_text (filter (fun p => strip p <> []) pages),
     all_chunks ++ concat (imap (fun i p => page_chunks self (n + i) p) pages)).
Proof.
  induction pages as [|p pages IH]; intros n all_text all_chunks.
  - simpl. by rewrite !app_nil_r.
  - cbn [read_pages imap concat]. replace (Z.of_nat n + 1) with (Z.of_nat (S n)) by lia.
    rewrite !IH, Nat.add_0_r.
    assert (imap ((fun i p0 => page_chunks self (n + i) p0) ∘ S) pages
            = imap (fun i p0 => page_chunks self (S n + i) p0) pages) as ->.
    { apply imap_ext. intros i q _. simpl. f_equal. lia. }
    unfold page_chunks at 3. case_bool_decide as Hb; cbn [negb].
    + rewrite filter_cons_False; [done|]. intros H. by apply H.
    + rewrite filter_cons_True by done. cbn [map]. by rewrite <- !app_assoc.
Qed.

Lemma page_chunks_lookup self i p c :
  c ∈ page_chunks self i p ->
  strip p <> [] /\ page_number c = Z.of_nat i /\
  c ∈ _create_chunks self (_clean_text p) (Z.of_nat i) 1000.
Proof.
  unfold page_chunks. case_bool_decide; [by intros ?%elem_of_nil|].
  intros Hc. split; [done|]. split; [|done].
  apply list_elem_of_lookup in Hc as [j Hj].
  by destruct (chunk_lookup _ _ _ _ _ _ Hj) as (b & _ & ->).
Qed.

(** Where the entries of the concatenation of indexed lists come from. *)
Lemma concat_imap_lookup {A B} (l : list A) : forall (f : nat -> A -> list B) i c,
  concat (imap f l) !! i = Some c ->
  exists k p j, l !! k = Some p /\ f k p !! j = Some c /\
    forall i' d, (i < i')%nat -> concat (imap f l) !! i' = Some d ->
      exists k' p' j', l !! k' = Some p' /\ f k' p' !! j' = Some d /\
        (k < k' \/ k = k' /\ j < j')%nat.
Proof.
  induction l as [|p l IH]; intros f i c; [done|].
  cbn [imap concat]. intros Hi.
  apply lookup_app_Some in Hi as [Hi|[Hlen Hi]].
  - exists 0%nat, p, i. split; [done|]. split; [done|].
    intros i' d Hlt Hd. apply lookup_app_Some in Hd as [Hd|[_ Hd]].
    + exists 0%nat, p, i'. split; [done|]. split; [done|]. right. by split.
    + destruct (IH _ _ _ Hd) as (k' & p' & j' & Hk' & Hj' & _).
      exists (S k'), p', j'. split; [done|]. split; [done|]. left. lia.
  - destruct (IH _ _ _ Hi) as (k & q & j & Hk & Hj & Hnext).
    exists (S k), q, j. split; [done|]. split; [done|].
    intros i' d Hlt Hd. apply lookup_app_Some in Hd as [Hd|[_ Hd]].
    { apply lookup_lt_Some in Hd. lia. }
    destruct (Hnext (i' - length (f 0%nat p))%nat d ltac:(lia) Hd)
      as (k' & p' & j' & Hk' & Hj' & Hlt').
    exists (S k'), p', j'. split; [done|]. split; [done|]. lia.
Qed.

Lemma page_chunks_index self k p j c :
  page_chunks self k p !! j = Some c ->
  strip p <> [] /\ page_number c = Z.of_nat k /\ chunk_index c = Z.of_nat j.
Proof.
  unfold page_chunks. case_bool_decide; [done|]. intros Hj. split; [done|].
  by destruct (chunk_lookup _ _ _ _ _ _ Hj) as (b & _ & ->).
Qed.

Lemma extract_closed self parse fs pdf_path :
  extract_text_from_pdf self parse fs pdf_path
  = file ← fs !! pdf_path; pages ← parse file;
    Some (join [nl; nl] (map _clean_text (filter (fun p => strip p <> []) pages)),
          Z.of_nat (length pages),
          concat (imap (page_chunks self) pages)).
Proof.
  unfold extract_text_from_pdf. destruct (fs !! pdf_path) as [file|]; [|done]. simpl.
  destruct (parse file) as [pages|]; [|done]. simpl.
  by rewrite (read_pages_closed self pages 0).
Qed.

(** X11. [extract_text_from_pdf] raises exactly when the file is not there
    or PyPDF2 fails on it. Otherwise the page count is that of the file,
    blank pages included; the text is the cleaned text of the pages that are
    not blank, joined by blank lines; and the chunks are those of these
    pages, page after page, for the page numbers counted from 0 over all
    pages. *)
Theorem extraction_by_pages self parse fs pdf_path :
  (extract_text_from_pdf self parse fs pdf_path = None <->
     fs !! pdf_path = None \/
     exists file, fs !! pdf_path = Some file /\ parse file = None) /\
  (forall file pages, fs !! pdf_path = Some file -> parse file = Some pages ->
     extract_text_from_pdf self parse fs pdf_path
     = Some (join [nl; nl] (map _clean_text (filter (fun p => strip p <> []) pages)),
             Z.of_nat (length pages),
             concat (imap (fun i p =>
                             if bool_decide (strip p = []) then []
                             else _create_chunks self (_clean_text p) (Z.of_nat i) 1000)
                          pages))).
Proof.
  rewrite extract_closed. split.
  - destruct (fs !! pdf_path) as [file|]; simpl; [|by split; auto].
    destruct (parse file) as [pages|] eqn:E; simpl.
    + split; [done|]. intros [|(? & [= <-] & ?)]; congruence.
    + split; [|done]. intros _. right. eauto.
  - intros file pages -> Hp. simpl. rewrite Hp. done.
Qed.

(** X12. The chunks of a document stand in the order of their pages and,
    within a page, of their indices: every chunk carries the number of a
    page of the document that is not blank, counted from 0, and of two
    chunks the later one is on a later page or has the larger index on the
    same page. So the pair of page number and chunk index identifies a
    chunk of the document. *)
Theorem chunks_in_page_order self pages :
  (forall c, c ∈ (read_pages self 0 pages [] []).2 ->
     exists p, pages !! Z.to_nat (page_number c) = Some p /\ strip p <> [] /\
       0 <= page_number c /\ 0 <= chunk_index c) /\
  (forall i j c d, (i < j)%nat ->
     (read_pages self 0 pages [] []).2 !! i = Some c ->
     (read_pages self 0 pages [] []).2 !! j = Some d ->
     page_number c < page_number d \/
     page_number c = page_number d /\ chunk_index c < chunk_index d) /\
  NoDup (map chunk_key (read_pages self 0 pages [] []).2).
Proof.
  rewrite (read_pages_closed self pages 0). cbn [snd app Nat.add].
  assert (forall i j c d, (i < j)%nat ->
            concat (imap (page_chunks self) pages) !! i = Some c ->
            concat (imap (page_chunks self) pages) !! j = Some d ->
            page_number c < page_number d \/
            page_number c = page_number d /\ chunk_index c < chunk_index d) as Hord.
  { intros i j c d Hlt Hc Hd.
    destruct (concat_imap_lookup _ _ _ _ Hc) as (k & p & n & _ & Hn & Hnext).
    destruct (Hnext _ _ Hlt Hd) as (k' & p' & n' & _ & Hn' & Hlex).
    apply page_chunks_index in Hn as (_ & -> & ->).
    apply page_chunks_index in Hn' as (_ & -> & ->). lia. }
  split; [|split; [done|]].
  - intros c Hc. apply list_elem_of_lookup in Hc as [i Hc].
    destruct (concat_imap_lookup _ _ _ _ Hc) as (k & p & n & Hk & Hn & _).
    apply page_chunks_index in Hn as (Hp & -> & ->).
    exists p. rewrite Nat2Z.id. repeat split; try done; lia.
  - apply NoDup_alt. intros i j k Hi Hj.
    rewrite list_lookup_fmap in Hi, Hj.
    destruct (_ !! i) as [c|] eqn:Ec; [|done].
    destruct (_ !! j) as [d|] eqn:Ed; [|done].
    simpl in Hi, Hj. injection Hi as <-. unfold chunk_key in Hj. injection Hj as Hp Hx.
    destruct (Nat.lt_trichotomy i j) as [Hlt|[->|Hlt]]; [|done|].
    + destruct (Hord _ _ _ _ Hlt Ec Ed); lia.
    + destruct (Hord _ _ _ _ Hlt Ed Ec); lia.
Qed.

Lemma process_pdf_cases disk self parse current fs file_content filename :
  process_pdf disk self parse current fs file_content filename
  = match disk fs (path_div (upload_dir self) (_sanitize_filename filename))
            file_content with
    | Refused => {| p_result := None; p_current := current; p_files := fs |}
    | Torn so_far =>
        {| p_result := None; p_current := current;
           p_files := <[path_div (upload_dir self) (_sanitize_filename filename)
                        := so_far]> fs |}
    | Stored =>
        match parse file_content with
        | None =>
            {| p_result := None; p_current := current;
               p_files := <[path_div (upload_dir self) (_sanitize_filename filename)
                            := file_content]> fs |}
        | Some pages =>
            {| p_result :=
                 Some (join [nl; nl]
                         (map _clean_text (filter (fun p => strip p <> []) pages)),
                       Z.of_nat (length pages),
                       Z.of_nat (length (join [nl; nl]
                         (map _clean_text (filter (fun p => strip p <> []) pages)))),
                       concat (imap (page_chunks self) pages));
               p_current :=
                 {| _current_pdf_text :=
                      Some (join [nl; nl]
                              (map _clean_text (filter (fun p => strip p <> []) pages)));
                    _current_pdf_path :=
                      Some (path_div (upload_dir self) (_sanitize_filename filename));
                    _current_chunks := concat (imap (page_chunks self) pages) |};
               p_files := <[path_div (upload_dir self) (_sanitize_filename filename)
                            := file_content]> fs |}
        end
    end.
Proof.
  unfold process_pdf, save_pdf. cbv zeta.
  destruct (disk fs _ file_content) as [| |so_far]; [|done..].
  rewrite extract_closed, lookup_insert_eq. simpl.
  by destruct (parse file_content).
Qed.

(** X13. What [process_pdf] does follows how the write ends. When the
    file system refuses the file, [process_pdf] raises and nothing is
    changed: no file, no attribute of the service. When the write breaks
    off, it raises, the attributes are as they were, and the file under the
    sanitised name holds what was written until then. When the file is
    stored, [process_pdf] reads back what it has just written, so its
    outcome is decided by the uploaded bytes alone, whatever the upload
    directory held before: the file stays on disk also when it cannot be
    parsed, and then the attributes of the service are as they were; when
    it can, the attributes hold the path written, the text and the chunks
    returned, and the length returned is that of the text. *)
Theorem process_pdf_outcome disk self parse current fs file_content filename :
  (disk fs (path_div (upload_dir self) (_sanitize_filename filename)) file_content
     = Refused ->
   process_pdf disk self parse current fs file_content filename
   = {| p_result := None; p_current := current; p_files := fs |}) /\
  (forall so_far,
     disk fs (path_div (upload_dir self) (_sanitize_filename filename)) file_content
       = Torn so_far ->
     process_pdf disk self parse current fs file_content filename
     = {| p_result := None; p_current := current;
          p_files := <[path_div (upload_dir self) (_sanitize_filename filename)
                       := so_far]> fs |}) /\
  (disk fs (path_div (upload_dir self) (_sanitize_filename filename)) file_content
     = Stored ->
   p_files (process_pdf disk self parse current fs file_content filename)
   = <[path_div (upload_dir self) (_sanitize_filename filename) := file_content]> fs /\
   (parse file_content = None ->
    p_result (process_pdf disk self parse current fs file_content filename) = None /\
    p_current (process_pdf disk self parse current fs file_content filename)
    = current) /\
   (forall pages, parse file_content = Some pages ->
    exists text chunks,
      extract_text_from_pdf self parse
        (<[path_div (upload_dir self) (_sanitize_filename filename)
           := file_content]> ∅)
        (path_div (upload_dir self) (_sanitize_filename filename))
      = Some (text, Z.of_nat (length pages), chunks) /\
      p_result (process_pdf disk self parse current fs file_content filename)
      = Some (text, Z.of_nat (length pages), Z.of_nat (length text), chunks) /\
      p_current (process_pdf disk self parse current fs file_content filename)
      = {| _current_pdf_text := Some text;
           _current_pdf_path :=
             Some (path_div (upload_dir self) (_sanitize_filename filename));
           _current_chunks := chunks |})).
Proof.
  rewrite process_pdf_cases. split; [by intros ->|]. split; [by intros ? ->|].
  intros ->. split; [by destruct (parse file_content)|]. split.
  - by intros ->.
  - intros pages Hp. rewrite extract_closed, lookup_insert_eq. simpl.
    rewrite !Hp. simpl. eauto.
Qed.

End DocumentFacts.

(** ** More about file names *)

Module SanitizerMore.
Import Text PDFService Normal Names Documents TextFacts Sanitizer.

Lemma contains_single c s : contains [c] s = true <-> c ∈ s.
Proof.
  induction s as [|a s IH]; simpl.
  - split; [done|]. by intros ?%elem_of_nil.
  - rewrite andb_true_r, orb_true_iff, elem_of_cons, Ascii.eqb_eq. tauto.
Qed.

Lemma after_last_absent c s : c ∉ s -> after_last c s = s.
Proof.
  destruct s as [|a s]; [done|]. intros [Ha Hs]%not_elem_of_cons. simpl.
  destruct (contains [c] s) eqn:E; [by apply contains_single in E|].
  destruct (Ascii.eqb a c) eqn:Ea; [|done]. apply Ascii.eqb_eq in Ea. congruence.
Qed.

Lemma after_last_free c s : c ∉ after_last c s.
Proof.
  induction s as [|a s IH]; simpl; [by intros ?%elem_of_nil|].
  destruct (contains [c] s) eqn:E; [done|].
  assert (c ∉ s) as Hs. { intros H%contains_single. congruence. }
  destruct (Ascii.eqb a c) eqn:Ea; [done|].
  apply not_elem_of_cons. split; [|done]. intros ->.
  by rewrite (proj2 (Ascii.eqb_eq a a)) in Ea.
Qed.

(** The last component of a path is that of what follows a slash. *)
Lemma after_last_app c d s : after_last c (d ++ c :: s) = after_last c s.
Proof.
  induction d as [|a d IH]; simpl.
  - destruct (contains [c] s) eqn:E; [done|].
    rewrite (proj2 (Ascii.eqb_eq c c)) by done.
    symmetry. apply after_last_absent. intros H%contains_single. congruence.
  - assert (contains [c] (d ++ c :: s) = true) as ->; [|done].
    apply contains_single, elem_of_app. right. left.
Qed.

Lemma scrub_cases c : scrub c = if dangerous c then "_"%char else c.
Proof. by destruct c as [[] [] [] [] [] [] [] []]. Qed.

Lemma sanitize_chars filename c :
  c ∈ _sanitize_filename filename -> dangerous c = false.
Proof.
  unfold _sanitize_filename. rewrite scrub_all. intros Hc.
  assert (c ∈ map scrub (basename filename) \/ c ∈ lit ".pdf") as [H|H].
  { destruct (negb _); [|by left]. by apply elem_of_app in Hc. }
  - apply list_elem_of_In, in_map_iff in H as (a & <- & _). apply dangerous_scrub.
  - change (lit ".pdf") with ["."; "p"; "d"; "f"]%char in H.
    repeat (apply elem_of_cons in H as [->|H]; [done|]).
    by apply elem_of_nil in H.
Qed.

Lemma sanitize_pdf filename :
  endswith (lit ".pdf") (lower (_sanitize_filename filename)) = true.
Proof.
  unfold _sanitize_filename. destruct (negb _) eqn:E.
  - rewrite lower_app. apply endswith_app.
  - by apply negb_false_iff in E.
Qed.

Lemma sanitize_no_slash filename : "/"%char ∉ _sanitize_filename filename.
Proof. by intros H%sanitize_chars. Qed.

(** The file of an upload is an entry of the upload directory. *)
Lemma save_path self filename :
  path_div (upload_dir self) (_sanitize_filename filename)
  = upload_dir self ++ [_sanitize_filename filename].
Proof.
  unfold path_div. rewrite split_on_absent by apply sanitize_no_slash.
  change ([] ++ ?x) with x.
  pose proof (sanitize_pdf filename) as Hpdf.
  apply endswith_length in Hpdf. unfold lower in Hpdf. rewrite length_map in Hpdf.
  pose proof (sanitize_no_slash filename) as Hslash.
  change (lit "/") with ["/"%char]. change (lit ".") with ["."%char].
  destruct (_sanitize_filename filename) as [|a [|b r]] eqn:E;
    [simpl in Hpdf; lia..|].
  rewrite filter_cons_True by (split; [done|by intros [=]]). rewrite filter_nil.
  cbn [startswith]. rewrite andb_true_r.
  destruct (Ascii.eqb "/" a) eqn:Ea; [|done].
  apply Ascii.eqb_eq in Ea. subst a. destruct Hslash. left.
Qed.

(** The name of a file is read back from its path. *)
Lemma basename_path (dir : list str) (name : str) :
  "/"%char ∉ name -> basename (path_str (dir ++ [name])) = name.
Proof.
  intros Hname. unfold basename.
  assert (forall d : list str, d <> [] ->
            after_last "/" (join (lit "/") (d ++ [name])) = name) as Hjoin.
  { intros d Hd. rewrite join_app by done. cbn [join].
    change (lit "/" ++ name) with ("/"%char :: name).
    rewrite after_last_app. by apply after_last_absent. }
  destruct dir as [|root rest]; cbn [path_str List.app].
  - rewrite bool_decide_eq_false_2.
    + by apply after_last_absent.
    + intros ->. apply Hname. apply (bool_decide_unpack _). vm_compute. exact I.
  - case_bool_decide as Hroot.
    + subst root. destruct rest as [|r rest].
      * change (lit "/" ++ join (lit "/") ([] ++ [name])) with ([] ++ "/"%char :: name).
        rewrite after_last_app. by apply after_last_absent.
      * rewrite join_app by done. cbn [join]. rewrite app_assoc.
        change (lit "/" ++ name) with ("/"%char :: name).
        rewrite after_last_app. by apply after_last_absent.
    + by apply (Hjoin (root :: rest)).
Qed.

(** X14. Sanitising a sanitised name changes nothing, and only the last
    component of the name given counts: whatever precedes its last slash is
    dropped, so uploads that differ in their directories only are written
    to the same file. *)
Theorem sanitize_filename_stable (directory filename : str) :
  _sanitize_filename (_sanitize_filename filename) = _sanitize_filename filename /\
  _sanitize_filename (directory ++ lit "/" ++ filename) = _sanitize_filename filename /\
  (forall disk self fs file_content,
     save_pdf disk self fs file_content (directory ++ lit "/" ++ filename)
     = save_pdf disk self fs file_content filename).
Proof.
  assert (_sanitize_filename (directory ++ lit "/" ++ filename)
          = _sanitize_filename filename) as Hdir.
  { unfold _sanitize_filename, basename.
    change (lit "/" ++ filename) with ("/"%char :: filename).
    by rewrite (after_last_app "/" directory filename). }
  split; [|split; [done|]].
  - clear Hdir. pose proof (sanitize_pdf filename) as Hpdf.
    pose proof (sanitize_chars filename) as Hsafe.
    pose proof (sanitize_no_slash filename) as Hslash.
    generalize dependent (_sanitize_filename filename). intros r Hpdf Hsafe Hslash.
    unfold _sanitize_filename, basename.
    rewrite after_last_absent, scrub_all by done.
    assert (map scrub r = r) as ->.
    { rewrite <- (map_id r) at 2. apply map_ext_in. intros c Hc%list_elem_of_In.
      by rewrite scrub_cases, (Hsafe c Hc). }
    by rewrite Hpdf.
  - intros disk self fs file_content. unfold save_pdf. by rewrite Hdir.
Qed.

End SanitizerMore.

(** ** The settings *)

Module ConfigFacts.
Import Text Config TextFacts.

Lemma split_on_length c (s : list ascii) : forall cur,
  length (split_on c cur s) = S (length (filter (fun a => a = c) s)).
Proof.
  induction s as [|a s IH]; intros cur; [done|]. cbn [split_on].
  destruct (Ascii.eqb a c) eqn:E.
  - apply Ascii.eqb_eq in E. rewrite filter_cons_True by done.
    cbn [length]. by rewrite IH.
  - apply Ascii.eqb_neq in E. rewrite filter_cons_False by done. apply IH.
Qed.

Lemma split_on_free c s : forall cur,
  c ∉ cur -> Forall (fun p => c ∉ p) (split_on c cur s).
Proof.
  induction s as [|a s IH]; intros cur Hcur; simpl.
  - by apply Forall_singleton.
  - destruct (Ascii.eqb a c) eqn:E.
    + apply Forall_cons. split; [done|]. apply IH. by intros ?%elem_of_nil.
    + apply IH. apply Ascii.eqb_neq in E. intros [H|H]%elem_of_app; [done|].
      apply list_elem_of_singleton in H. congruence.
Qed.

Lemma split_on_join c s : forall cur,
  join [c] (split_on c cur s) = cur ++ s.
Proof.
  induction s as [|a s IH]; intros cur; simpl.
  - by rewrite app_nil_r.
  - destruct (Ascii.eqb a c) eqn:E.
    + apply Ascii.eqb_eq in E. subst a.
      specialize (IH []). destruct (split_on c [] s) as [|p ps] eqn:Es.
      { pose proof (split_on_length c s []) as Hl. by rewrite Es in Hl. }
      change (join [c] (cur :: p :: ps)) with (cur ++ [c] ++ join [c] (p :: ps)).
      by rewrite IH.
    + rewrite IH. by rewrite <- app_assoc.
Qed.

(** X15. The origins allowed are the pieces of the setting between its
    commas, each without the whitespace around it: there is one more of
    them than there are commas, so never none, not even for an empty
    setting; and none of them holds a comma. *)
Theorem allowed_origins_pieces (self : Settings) :
  length (allowed_origins_list self)
  = S (length (filter (fun a => a = ","%char) (ALLOWED_ORIGINS self))) /\
  Forall (fun origin => strip origin = origin /\ ","%char ∉ origin)
    (allowed_origins_list self) /\
  exists pieces,
    allowed_origins_list self = map strip pieces /\
    join (lit ",") pieces = ALLOWED_ORIGINS self.
Proof.
  unfold allowed_origins_list. split; [|split].
  - by rewrite length_map, split_on_length.
  - apply Forall_map.
    eapply Forall_impl; [apply (split_on_free "," (ALLOWED_ORIGINS self) [])|].
    { by intros ?%elem_of_nil. }
    intros p Hp. simpl. split; [apply strip_idem|].
    intros H. apply Hp. destruct (strip_split p) as (l & r & Hs & _).
    rewrite Hs. apply elem_of_app. right. apply elem_of_app. by left.
  - exists (split_on "," [] (ALLOWED_ORIGINS self)). split; [done|].
    apply (split_on_join "," (ALLOWED_ORIGINS self) []).
Qed.


End ConfigFacts.

(** ** Indexing and search *)

Module Indexing.
Import Text World PDFService RAGService Traces Store Examples.
Local Open Scope world_scope.

Lemma batches_concat {A} (n : nat) : forall fuel (l : list A),
  (length l <= fuel)%nat -> concat (batches fuel (S n) l) = l.
Proof.
  induction fuel as [|fuel IH]; intros [|x l] Hl; simpl in *; try done; [lia|].
  rewrite IH.
  - f_equal. apply take_drop.
  - rewrite length_drop. lia.
Qed.

Lemma batches_sizes {A} (n : nat) : forall fuel (l : list A),
  Forall (fun batch => (0 < length batch <= S n)%nat) (batches fuel (S n) l).
Proof.
  induction fuel as [|fuel IH]; intros [|x l]; simpl; try done.
  apply Forall_cons. split; [|apply IH].
  simpl. rewrite length_take. lia.
Qed.

Lemma concat_related {A B} (P : A -> B -> Prop) ls ks :
  Forall2 (Forall2 P) ls ks -> Forall2 P (concat ls) (concat ks).
Proof. induction 1; simpl; [constructor|by apply Forall2_app]. Qed.

Section Service.
Variable env : Env.
Variable self : RAGService.RAGService.

Lemma data_objects filename batch_chunks : forall t,
  exists batch_data,
    for_each (data_object env filename) batch_chunks t
    = (batch_data, t ++ replicate (length batch_chunks) Now) /\
    Forall2 (describes filename) batch_chunks batch_data.
Proof.
  induction batch_chunks as [|c cs IH]; intros t.
  - exists []. simpl. unfold ret. by rewrite app_nil_r.
  - cbn [for_each length replicate]. unfold bind at 1.
    unfold data_object at 1. unfold bind at 1. unfold call, ret at 1.
    unfold bind at 1. destruct (IH (t ++ [Now])) as (os & -> & Hos).
    unfold ret. eexists (_ :: os). split.
    + by rewrite <- app_assoc.
    + by apply Forall2_cons.
Qed.

Lemma inserted_clocks n : inserted (replicate n Now) = [].
Proof. by induction n. Qed.

(** The loop inserts a prefix of the batches: all of them when it ends
    well. *)
Lemma insert_batches_stores filename bs : forall t,
  exists storing n,
    (insert_batches env filename bs t).2 = t ++ storing /\
    Forall stores storing /\
    Forall2 (Forall2 (describes filename)) (take n bs) (inserted storing) /\
    ((insert_batches env filename bs t).1 = true -> n = length bs).
Proof.
  induction bs as [|b bs IH]; intros t.
  - exists [], 0%nat. simpl. unfold ret. simpl. by rewrite app_nil_r.
  - cbn [insert_batches]. destruct (data_objects filename b t) as (os & Hfe & Hos).
    unfold bind, call. rewrite Hfe. cbn [fst snd].
    assert (Forall stores (replicate (length b) Now ++ [InsertMany os])) as Hst.
    { apply Forall_app. split.
      - apply Forall_replicate. by left.
      - apply Forall_singleton. right. eauto. }
    assert (inserted (replicate (length b) Now ++ [InsertMany os]) = [os]) as Hin.
    { unfold inserted. rewrite omap_app. fold (inserted (replicate (length b) Now)).
      by rewrite inserted_clocks. }
    destruct (insert_many env _ os).
    + destruct (IH ((t ++ replicate (length b) Now) ++ [InsertMany os]))
        as (storing & n & E & Hs & Hd & Hn).
      exists ((replicate (length b) Now ++ [InsertMany os]) ++ storing), (S n).
      rewrite E. split; [by rewrite <- !app_assoc|].
      split; [by apply Forall_app|]. split.
      * unfold inserted. rewrite omap_app. fold (inserted storing).
        fold (inserted (replicate (length b) Now ++ [InsertMany os])).
        rewrite Hin. simpl. by apply Forall2_cons.
      * intros H. simpl. f_equal. by apply Hn.
    + exists (replicate (length b) Now ++ [InsertMany os]), 1%nat.
      unfold ret. cbn [fst snd]. split; [by rewrite <- !app_assoc|].
      split; [done|]. split; [|done].
      rewrite Hin. simpl. rewrite take_0. by repeat constructor.
Qed.

Lemma clear_clears filename t :
  exists clearing,
    _clear_existing_data env self filename t = (tt, t ++ clearing) /\
    Forall (clears self filename) clearing.
Proof.
  unfold _clear_existing_data, bind, call, ret. cbn [fst snd].
  destruct (collections_get env t (class_name self)); cbn [fst snd].
  - exists [CollectionsGet (class_name self); DeleteMany filename].
    split; [by rewrite <- app_assoc|].
    apply Forall_cons. split; [by left|]. apply Forall_singleton. by right.
  - exists [CollectionsGet (class_name self)].
    split; [done|]. apply Forall_singleton. by left.
Qed.

(** X17. What [create_embeddings] does to the vector store. It first
    clears: it asks for the collection and for the deletion of the entries
    of this file, and nothing of another file is deleted. Then it stores:
    batches of at most 100 entries, none empty, that describe the chunks in
    their order, each chunk at most once. It stores all chunks when it
    returns [True]; when it returns [False], what it stored before the
    failure stays, and is a prefix of the chunks. Without chunks it returns
    [False] and requests nothing. *)
Theorem create_embeddings_stores chunks filename t :
  exists clearing storing,
    (create_embeddings env self chunks filename t).2 = t ++ clearing ++ storing /\
    Forall (clears self filename) clearing /\
    Forall stores storing /\
    Forall (fun batch => (0 < length batch <= 100)%nat) (inserted storing) /\
    Forall2 (describes filename)
      (take (length (concat (inserted storing))) chunks)
      (concat (inserted storing)) /\
    ((create_embeddings env self chunks filename t).1 = true ->
     chunks <> [] /\
     Forall2 (describes filename) chunks (concat (inserted storing))) /\
    (chunks = [] -> create_embeddings env self chunks filename t = (false, t)).
Proof.
  unfold create_embeddings. case_bool_decide as Hc.
  { exists [], []. unfold ret. cbn [fst snd]. rewrite app_nil_r.
    subst chunks. by repeat split. }
  destruct (clear_clears filename t) as (clearing & Ecl & Hcl).
  unfold bind, call. rewrite Ecl. cbn [fst snd].
  destruct (collections_get env _ (class_name self)).
  - destruct (insert_batches_stores filename (batches (length chunks) 100 chunks)
                ((t ++ clearing) ++ [CollectionsGet (class_name self)]))
      as (storing & n & E & Hs & Hd & Hn).
    exists (clearing ++ [CollectionsGet (class_name self)]), storing.
    split; [by rewrite E, <- !app_assoc|].
    split. { apply Forall_app. split; [done|]. apply Forall_singleton. by left. }
    split; [done|].
    pose proof (batches_concat 99 (length chunks) chunks ltac:(lia)) as Hcat.
    pose proof (batches_sizes 99 (length chunks) chunks) as Hsz.
    revert Hd Hn Hcat Hsz. clear E.
    generalize (batches (length chunks) 100 chunks).
    intros bs Hd Hn Hcat Hsz. subst chunks.
    assert (Forall2 (describes filename) (concat (take n bs))
              (concat (inserted storing))) as Hall.
    { by apply concat_related. }
    split; [|split; [|split]].
    + apply (Forall_take _ n) in Hsz. revert Hsz Hd.
      generalize (take n bs) (inserted storing).
      intros bs' os Hsz Hd. induction Hd as [|b o bs' os Hbo _ IH]; [done|].
      apply Forall_cons in Hsz as [Hb Hsz]. apply Forall_cons. split; [|by apply IH].
      apply Forall2_length in Hbo. lia.
    + rewrite <- (Forall2_length _ _ _ Hall).
      rewrite <- (take_drop n bs) at 2.
      by rewrite concat_app, take_app_length.
    + intros Hok. split; [done|]. rewrite (Hn Hok), firstn_all in Hall. exact Hall.
    + done.
  - exists (clearing ++ [CollectionsGet (class_name self)]), [].
    unfold ret. cbn [fst snd]. split; [by rewrite app_nil_r, <- app_assoc|].
    split. { apply Forall_app. split; [done|]. apply Forall_singleton. by left. }
    by repeat split.
Qed.


End Service.


End Indexing.

(** ** More about the chat turn *)

Module ChatMore.
Import Text World PDFService RAGService ChatService Traces Examples Uploads Chat.
Local Open Scope world_scope.

Lemma last_8_window {A} (l : list A) :
  last_8 l `suffix_of` l /\ length (last_8 l) = (length l `min` 8)%nat.
Proof.
  unfold last_8. split; [apply suffix_drop|]. rewrite length_drop. lia.
Qed.

Lemma create_system_prompt_context self self' ctx :
  ctx <> [] -> create_system_prompt self ctx = create_system_prompt self' ctx.
Proof. intros H. unfold create_system_prompt. by case_bool_decide. Qed.

Section Service.
Variable env : Env.

(** X19. A chat turn asks the language model once, after the retrieval.
    The messages are the system message, then the last 8 turns of the
    history given, or all of them when there are fewer, in their order,
    then the user's message: at most 10 messages however long the history
    is. After that request the turn only reads the clock, twice when it
    returns. *)
Theorem chat_request self message history t :
  exists recent more,
    (chat env self message history t).2
    = (relevant_context_of env self message t).2
      ++ CompletionsCreate (model self)
           ({| m_role := lit "system";
               m_content :=
                 create_system_prompt self (relevant_context_of env self message t).1 |}
            :: map (fun msg => {| m_role := role msg; m_content := content msg |}) recent
            ++ [{| m_role := lit "user"; m_content := message |}])
           (max_tokens self) (temperature self)
         :: more /\
    recent `suffix_of` or_empty history /\
    length recent = (length (or_empty history) `min` 8)%nat /\
    Forall (fun req => req = Now) more /\
    (length more <= 2)%nat /\
    (forall r, result (chat env self message history t).1 = Returned r ->
       length more = 2%nat).
Proof.
  unfold chat, bind, call.
  destruct (relevant_context_of env self message t) as [ctx t1]. cbn [fst snd].
  exists (last_8 (or_empty history)).
  assert (build_messages (create_system_prompt self ctx) message history
          = {| m_role := lit "system"; m_content := create_system_prompt self ctx |}
            :: map (fun msg => {| m_role := role msg; m_content := content msg |})
                 (last_8 (or_empty history))
            ++ [{| m_role := lit "user"; m_content := message |}]) as <-.
  { unfold build_messages. by destruct history as [[|m h]|]. }
  generalize (build_messages (create_system_prompt self ctx) message history).
  intros messages.
  destruct (last_8_window (or_empty history)) as [Hs Hl].
  unfold conclude, bind, call, ret.
  destruct (completions_create env t1 (model self) messages (max_tokens self)
              (temperature self))
    as [c|]; cbn [fst snd].
  2: { exists []. repeat split; try done; simpl; lia. }
  destruct (choices c) as [|[ai|] rest]; cbn [fst snd result].
  - exists []. repeat split; try done; simpl; lia.
  - exists [Now; Now]. rewrite <- !app_assoc. repeat split; try done.
    by repeat constructor.
  - exists [Now; Now]. rewrite <- !app_assoc. repeat split; try done.
    by repeat constructor.
Qed.

(** X20. How a chat turn ends. It returns exactly when the language model
    answers and the first choice of the answer has a text: the response is
    that text, the tokens used are the total the answer reports, 0 when it
    reports no usage, and the retrieval flag is that of the service. In
    every other case, an answer without choices or with a first choice
    without text included, it raises. *)
Theorem chat_outcome self message history t :
  match result (chat env self message history t).1 with
  | Returned r =>
      exists c rest,
        completions_create env (relevant_context_of env self message t).2 (model self)
          (build_messages
             (create_system_prompt self (relevant_context_of env self message t).1)
             message history)
          (max_tokens self) (temperature self) = Some c /\
        choices c = Some (response r) :: rest /\
        tokens_used r = default 0 (usage c) /\
        rag_used r = use_rag self
  | Raised =>
      forall c text rest,
        completions_create env (relevant_context_of env self message t).2 (model self)
          (build_messages
             (create_system_prompt self (relevant_context_of env self message t).1)
             message history)
          (max_tokens self) (temperature self) = Some c ->
        choices c <> Some text :: rest
  end.
Proof.
  unfold chat, bind, call.
  destruct (relevant_context_of env self message t) as [ctx t1]. cbn [fst snd].
  destruct (completions_create env t1 _ _ _ _) as [c|]; [|done].
  unfold conclude, bind, call, ret.
  destruct (choices c) as [|[ai|] rest] eqn:Ec; cbn [fst snd result].
  - intros ? ? ? [= <-]. by rewrite Ec.
  - exists c, rest. by repeat split.
  - intros ? ? ? [= <-]. by rewrite Ec.
Qed.

Lemma set_pdf_context_cases self pdf_text chunks filename t :
  set_pdf_context env self pdf_text chunks filename t
  = if truthy chunks && (5 <? length (or_empty chunks))%nat
    then
      ({| model := model self; max_tokens := max_tokens self;
          temperature := temperature self;
          rag_service := rag_service self; pdf_context := Some pdf_text;
          use_rag :=
            (create_embeddings env (rag_service self) (or_empty chunks) filename t).1;
          current_filename := Some filename |},
       (create_embeddings env (rag_service self) (or_empty chunks) filename t).2)
    else
      ({| model := model self; max_tokens := max_tokens self;
          temperature := temperature self;
          rag_service := rag_service self; pdf_context := Some pdf_text;
          use_rag := false; current_filename := Some filename |}, t).
Proof.
  unfold set_pdf_context, bind, ret. cbn [rag_service model max_tokens temperature].
  destruct (truthy chunks && (5 <? length (or_empty chunks))%nat); [|done].
  by destruct (create_embeddings env (rag_service self) (or_empty chunks) filename t)
    as [[|] t'].
Qed.

(** X21. [set_pdf_context] always replaces the text and the file name of
    the service and leaves its model, token limit, temperature and
    retrieval service as they are. For at most 5 chunks, or none given, it requests nothing, so
    the entries of an earlier document stay in the vector store, and
    retrieval mode is off afterwards whatever it was before. *)
Theorem set_pdf_context_fields self pdf_text chunks filename t :
  pdf_context (set_pdf_context env self pdf_text chunks filename t).1 = Some pdf_text /\
  current_filename (set_pdf_context env self pdf_text chunks filename t).1
    = Some filename /\
  model (set_pdf_context env self pdf_text chunks filename t).1 = model self /\
  max_tokens (set_pdf_context env self pdf_text chunks filename t).1 = max_tokens self /\
  temperature (set_pdf_context env self pdf_text chunks filename t).1
    = temperature self /\
  rag_service (set_pdf_context env self pdf_text chunks filename t).1
    = rag_service self /\
  ((length (or_empty chunks) <= 5)%nat ->
   (set_pdf_context env self pdf_text chunks filename t).2 = t /\
   use_rag (set_pdf_context env self pdf_text chunks filename t).1 = false).
Proof.
  rewrite set_pdf_context_cases.
  destruct (truthy chunks && (5 <? length (or_empty chunks))%nat) eqn:E.
  - repeat split; try done.
    all: apply andb_true_iff in E as [_ E%Nat.ltb_lt]; lia.
  - by repeat split.
Qed.

(** X22. In full-context mode the language model sees the first 5000
    characters of the document and nothing behind them: two services with
    the same model, token limit and temperature that differ only in what
    their documents hold after the first 5000 characters take the same
    chat turn. *)
Theorem full_context_truncated self self' message history t :
  use_rag self = false -> use_rag self' = false ->
  model self = model self' -> max_tokens self = max_tokens self' ->
  temperature self = temperature self' ->
  slice_to 5000 (or_empty (pdf_context self))
    = slice_to 5000 (or_empty (pdf_context self')) ->
  chat env self message history t = chat env self' message history t.
Proof.
  intros Hrag Hrag' Hmodel Hmax Htemp Hdoc. unfold chat.
  rewrite !relevant_context_full by done. unfold bind, ret, call. cbn [fst snd].
  rewrite <- Hdoc, <- Hmodel, <- Hmax, <- Htemp.
  assert (create_system_prompt self (slice_to 5000 (or_empty (pdf_context self)))
          = create_system_prompt self' (slice_to 5000 (or_empty (pdf_context self))))
    as ->.
  { destruct (slice_to 5000 (or_empty (pdf_context self))) as [|c s] eqn:E.
    - unfold create_system_prompt.
      rewrite bool_decide_eq_true_2 by done. cbn [negb].
      assert (truthy (pdf_context self) = false) as ->.
      { by destruct (pdf_context self) as [[|a l]|]. }
      assert (truthy (pdf_context self') = false) as ->; [|done].
      by destruct (pdf_context self') as [[|a l]|].
    - by apply create_system_prompt_context. }
  destruct (completions_create env _ _ _ _) as [c|]; [|done].
  unfold conclude. destruct (choices c) as [|[ai|] rest]; try done.
  unfold bind, call, ret. cbn [fst snd]. by rewrite Hrag, Hrag'.
Qed.

End Service.

Lemma full_context_truncated_witness :
  chat quiet_env (reading (long_text "left")) zebra_question None []
  = chat quiet_env (reading (long_text "right")) zebra_question None [].
Proof.
  apply (full_context_truncated quiet_env (reading (long_text "left"))
           (reading (long_text "right")) zebra_question None []).
  - reflexivity.
  - reflexivity.
  - reflexivity.
  - reflexivity.
  - reflexivity.
  - vm_compute. reflexivity.
Defined.

End ChatMore.

(** ** The endpoints *)

Module Endpoints.
Import Text World PDFService RAGService ChatService Documents Main Pages Apps.
Import Examples Uploads.
Import TextFacts CleanTextMore DocumentFacts SanitizerMore ChatMore.
Local Open Scope world_scope.

Section Service.
Variable env : Env.
Variable disk : Disk.
Variable parse : list Byte.byte -> option (list str).
Variable max_file_size : Z.

Lemma upload_cases (app : App) filename content t :
  upload_pdf env disk parse max_file_size app filename content t
  = if negb (endswith (lit ".pdf") (lower filename))
       || (Z.of_nat (length content) >? max_file_size)
    then ((Failure 400, app), t)
    else
      match disk (files app)
              (upload_dir (pdf_service app) ++ [_sanitize_filename filename])
              content with
      | Refused =>
          ((Failure 500,
            {| pdf_service := pdf_service app; current := current app;
               chat_service := chat_service app; files := files app |}), t)
      | Torn so_far =>
          ((Failure 500,
            {| pdf_service := pdf_service app; current := current app;
               chat_service := chat_service app;
               files := <[upload_dir (pdf_service app) ++ [_sanitize_filename filename]
                          := so_far]> (files app) |}), t)
      | Stored =>
          match parse content with
          | None =>
              ((Failure 500,
                {| pdf_service := pdf_service app; current := current app;
                   chat_service := chat_service app;
                   files := <[upload_dir (pdf_service app)
                              ++ [_sanitize_filename filename]
                              := content]> (files app) |}), t)
          | Some pages =>
              let text :=
                join [nl; nl]
                  (map _clean_text (filter (fun p => strip p <> []) pages)) in
              let chunks := (read_pages (pdf_service app) 0 pages [] []).2 in
              let s :=
                set_pdf_context env (chat_service app) text (Some chunks) filename t in
              ((Success
                  {| u_filename := filename;
                     u_pages := Z.of_nat (length pages);
                     u_text_length := Z.of_nat (length text);
                     u_message :=
                       lit "PDF uploaded and processed successfully. Created "
                       ++ of_Z (Z.of_nat (length chunks)) ++ lit " chunks for RAG." |},
                {| pdf_service := pdf_service app;
                   current :=
                     {| _current_pdf_text := Some text;
                        _current_pdf_path :=
                          Some (upload_dir (pdf_service app)
                                ++ [_sanitize_filename filename]);
                        _current_chunks := chunks |};
                   chat_service := s.1;
                   files := <[upload_dir (pdf_service app)
                              ++ [_sanitize_filename filename]
                              := content]> (files app) |}), s.2)
          end
      end.
Proof.
  unfold upload_pdf. destruct (negb _); [done|].
  destruct (_ >? _); [done|]. cbn [orb].
  rewrite process_pdf_cases, save_path.
  destruct (disk (files app) _ content) as [| |so_far]; [|done..].
  destruct (parse content) as [pages|]; [|done]. cbn [p_result p_current p_files].
  rewrite (read_pages_closed _ pages 0). cbn [snd List.app Nat.add].
  unfold bind, ret.
  by destruct (set_pdf_context env _ _ _ _ t).
Qed.

(** X23. An upload is refused with status 400 exactly when its name does
    not end with [.pdf], whatever the case of the letters, or its content
    is larger than the maximal size. A refused upload changes nothing: no
    file is written, the document loaded stays, and nothing is requested. *)
Theorem upload_rejected (app : App) filename content t :
  (endswith (lit ".pdf") (lower filename) = false
   \/ max_file_size < Z.of_nat (length content) ->
   upload_pdf env disk parse max_file_size app filename content t
   = ((Failure 400, app), t)) /\
  ((upload_pdf env disk parse max_file_size app filename content t).1.1 = Failure 400 ->
   endswith (lit ".pdf") (lower filename) = false
   \/ max_file_size < Z.of_nat (length content)).
Proof.
  rewrite upload_cases.
  destruct (endswith (lit ".pdf") (lower filename)); cbn [negb orb].
  2: { split; [done|auto]. }
  destruct (Z.gtb_spec (Z.of_nat (length content)) max_file_size) as [Hgt|Hle].
  { split; [done|]. intros _. right. lia. }
  split.
  - intros [|]; [done|lia].
  - destruct (disk (files app) _ content); [|done..].
    by destruct (parse content).
Qed.

(** X24. An accepted upload whose file is stored but which PyPDF2 cannot
    read ends with status 500. The document loaded before, the chat service
    and the vector store are untouched, but the file has been written to
    the upload directory under its sanitised name. *)
Theorem upload_unreadable (app : App) filename content t :
  endswith (lit ".pdf") (lower filename) = true ->
  Z.of_nat (length content) <= max_file_size ->
  disk (files app) (upload_dir (pdf_service app) ++ [_sanitize_filename filename])
    content = Stored ->
  parse content = None ->
  upload_pdf env disk parse max_file_size app filename content t
  = ((Failure 500,
      {| pdf_service := pdf_service app; current := current app;
         chat_service := chat_service app;
         files := <[upload_dir (pdf_service app) ++ [_sanitize_filename filename]
                    := content]> (files app) |}), t).
Proof.
  intros Hext Hsize Hdisk Hparse.
  rewrite upload_cases, Hext, Hdisk, Hparse. cbn [negb orb].
  by destruct (Z.gtb_spec (Z.of_nat (length content)) max_file_size); [lia|].
Qed.

(** X25. An accepted upload whose file is stored and which PyPDF2 can read
    succeeds. The response gives the name as uploaded, the number of pages
    of the file, blank ones included, and the length of the text. The file
    is on disk under the sanitised name; the PDF service holds its path,
    the text and the chunks of the pages; the chat service is the one
    [set_pdf_context] leaves for this text, these chunks and the name as
    uploaded, and the requests are those of [set_pdf_context]. *)
Theorem upload_stored (app : App) filename content pages t :
  endswith (lit ".pdf") (lower filename) = true ->
  Z.of_nat (length content) <= max_file_size ->
  disk (files app) (upload_dir (pdf_service app) ++ [_sanitize_filename filename])
    content = Stored ->
  parse content = Some pages ->
  exists text chunks,
    extract_text_from_pdf (pdf_service app) parse
      (files (upload_pdf env disk parse max_file_size app filename content t).1.2)
      (upload_dir (pdf_service app) ++ [_sanitize_filename filename])
    = Some (text, Z.of_nat (length pages), chunks) /\
    (upload_pdf env disk parse max_file_size app filename content t).1.1
    = Success
        {| u_filename := filename;
           u_pages := Z.of_nat (length pages);
           u_text_length := Z.of_nat (length text);
           u_message :=
             lit "PDF uploaded and processed successfully. Created "
             ++ of_Z (Z.of_nat (length chunks)) ++ lit " chunks for RAG." |} /\
    current (upload_pdf env disk parse max_file_size app filename content t).1.2
    = {| _current_pdf_text := Some text;
         _current_pdf_path :=
           Some (upload_dir (pdf_service app) ++ [_sanitize_filename filename]);
         _current_chunks := chunks |} /\
    chat_service (upload_pdf env disk parse max_file_size app filename content t).1.2
    = (set_pdf_context env (chat_service app) text (Some chunks) filename t).1 /\
    (upload_pdf env disk parse max_file_size app filename content t).2
    = (set_pdf_context env (chat_service app) text (Some chunks) filename t).2 /\
    pdf_service (upload_pdf env disk parse max_file_size app filename content t).1.2
    = pdf_service app.
Proof.
  intros Hext Hsize Hdisk Hparse.
  rewrite upload_cases, Hext, Hdisk, Hparse. cbn [negb orb].
  destruct (Z.gtb_spec (Z.of_nat (length content)) max_file_size); [lia|].
  cbn [fst snd files current chat_service pdf_service].
  eexists _, _. split; [|by repeat split].
  rewrite extract_closed, lookup_insert_eq. simpl. rewrite Hparse. simpl.
  by rewrite (read_pages_closed _ pages 0).
Qed.

Lemma blank_pages self pages : forall page_num all_text all_chunks,
  Forall (fun p => strip p = []) pages ->
  read_pages self page_num pages all_text all_chunks = (all_text, all_chunks).
Proof.
  induction pages as [|p pages IH]; intros n a c H; [done|].
  apply Forall_cons in H as [Hp H]. cbn [read_pages].
  rewrite bool_decide_eq_true_2 by done. cbn [negb]. by apply IH.
Qed.

Lemma blank_filter (pages : list str) :
  Forall (fun p => strip p = []) pages ->
  filter (fun p => strip p <> []) pages = [].
Proof.
  induction 1 as [|p ps Hp _ IH]; [done|].
  rewrite filter_cons_False; [done|]. intros H. by apply H.
Qed.

(** X26. A document whose pages are all blank, once its file is stored,
    uploads with success: the response counts its pages, a text of length 0
    and 0 chunks, and nothing is requested. But no document counts as
    loaded afterwards, whatever was loaded before: no chat request reaches
    the chat service, each is answered without a request to the language
    model, with status 400 when its message is valid and 422 when it is
    not, and [get_pdf_info] says that no PDF is loaded. *)
Theorem blank_document (app : App) filename content pages t :
  endswith (lit ".pdf") (lower filename) = true ->
  Z.of_nat (length content) <= max_file_size ->
  disk (files app) (upload_dir (pdf_service app) ++ [_sanitize_filename filename])
    content = Stored ->
  parse content = Some pages ->
  Forall (fun p => strip p = []) pages ->
  (upload_pdf env disk parse max_file_size app filename content t).1.1
  = Success
      {| u_filename := filename;
         u_pages := Z.of_nat (length pages);
         u_text_length := 0;
         u_message :=
           lit "PDF uploaded and processed successfully. Created 0 chunks for RAG." |} /\
  (upload_pdf env disk parse max_file_size app filename content t).2 = t /\
  (forall message history t',
     chat_endpoint env
       (upload_pdf env disk parse max_file_size app filename content t).1.2
       message history t'
     = (Failure (if valid_message message then 400 else 422), t')) /\
  get_pdf_info (upload_pdf env disk parse max_file_size app filename content t).1.2
  = None.
Proof.
  intros Hext Hsize Hdisk Hparse Hblank.
  rewrite upload_cases, Hext, Hdisk, Hparse. cbn [negb orb].
  destruct (Z.gtb_spec (Z.of_nat (length content)) max_file_size); [lia|].
  rewrite (blank_pages _ pages 0 [] []) by done.
  rewrite (blank_filter pages) by done.
  cbn [map join snd length].
  unfold set_pdf_context, ret. cbn [fst snd truthy andb].
  split; [done|]. split; [done|]. split; [|done].
  intros message history t'. unfold chat_endpoint. cbn [current _current_pdf_text truthy negb].
  by destruct (valid_message message).
Qed.

(** X27. The chat endpoint answers with status 422 exactly when the
    message is empty or longer than 2000 characters, and with status 400
    exactly when the message is valid and the PDF service holds no text, an
    empty one included; in both cases it requests nothing. Otherwise it
    takes one turn of the chat service: status 500 exactly when the turn
    raises, and else the response, the history and the tokens used that the
    turn returns; the retrieval flag of the turn is dropped. *)
Theorem chat_endpoint_status (app : App) message history t :
  ((chat_endpoint env app message history t).1 = Failure 422 <->
     (length message = 0 \/ 2000 < length message)%nat) /\
  ((chat_endpoint env app message history t).1 = Failure 400 <->
     (1 <= length message <= 2000)%nat /\
     truthy (_current_pdf_text (current app)) = false) /\
  ((length message = 0 \/ 2000 < length message)%nat
   \/ truthy (_current_pdf_text (current app)) = false ->
   (chat_endpoint env app message history t).2 = t) /\
  ((1 <= length message <= 2000)%nat ->
   truthy (_current_pdf_text (current app)) = true ->
   (chat_endpoint env app message history t).2
     = (chat env (chat_service app) message history t).2 /\
   (chat_endpoint env app message history t).1
     = match result (chat env (chat_service app) message history t).1 with
       | Raised => Failure 500
       | Returned r =>
           Success {| c_response := response r;
                      c_conversation_history := conversation_history r;
                      c_tokens_used := tokens_used r |}
       end).
Proof.
  unfold chat_endpoint, valid_message.
  destruct (Nat.leb_spec 1 (length message)) as [H1|H1];
    destruct (Nat.leb_spec (length message) 2000) as [H2|H2]; cbn [andb negb].
  2-4: split; [split; [lia|done]|]; split; [split; [done|lia]|];
       split; [done|lia].
  destruct (truthy _); cbn [negb].
  - unfold bind, ret.
    destruct (chat env (chat_service app) message history t) as [a t1].
    cbn [fst snd]. destruct (result a); cbn [fst snd].
    all: split; [split; [done|lia]|]; split; [split; [done|by intros [_ ?]]|].
    all: split; [|done]; by intros [?|?]; [lia|].
  - split; [split; [done|lia]|]. by repeat split.
Qed.

(** X28. Uploads keep the two services in step. If the chat service and
    the PDF service hold the same text before an upload, with retrieval
    mode on only for more than 5 chunks and the file of the document on
    disk under the sanitised form of the name the chat service holds, then
    so they do after it, whether the upload is refused, fails or succeeds.
    So what [get_pdf_info] then reports as the file name is that sanitised
    name, and it reports the document as ready for retrieval whenever the
    chat service is in retrieval mode. *)
Theorem upload_keeps_in_step (app : App) filename content t :
  in_step app ->
  in_step (upload_pdf env disk parse max_file_size app filename content t).1.2 /\
  forall info,
    get_pdf_info (upload_pdf env disk parse max_file_size app filename content t).1.2
      = Some info ->
    (exists name,
       current_filename
         (chat_service
            (upload_pdf env disk parse max_file_size app filename content t).1.2)
         = Some name /\
       i_filename info = _sanitize_filename name) /\
    (use_rag
       (chat_service
          (upload_pdf env disk parse max_file_size app filename content t).1.2)
       = true -> i_rag_ready info = true).
Proof.
  intros Hstep.
  assert (forall bytes,
            in_step
              {| pdf_service := pdf_service app; current := current app;
                 chat_service := chat_service app;
                 files := <[upload_dir (pdf_service app)
                            ++ [_sanitize_filename filename] := bytes]> (files app) |})
    as Hover.
  { intros bytes. destruct Hstep as (Htext & Hrag & Hpath).
    split; [done|]. split; [done|].
    cbn [chat_service current pdf_service files].
    intros Hp. destruct (Hpath Hp) as (name & file & Hn & Hcur & Hf).
    destruct (decide (upload_dir (pdf_service app) ++ [_sanitize_filename filename]
                      = upload_dir (pdf_service app) ++ [_sanitize_filename name]))
      as [E|E].
    - exists name, bytes. split; [done|]. split; [done|].
      rewrite E. apply lookup_insert_eq.
    - exists name, file. split; [done|]. split; [done|].
      by rewrite lookup_insert_ne. }
  assert (in_step
            (upload_pdf env disk parse max_file_size app filename content t).1.2)
    as Hstep'.
  { rewrite upload_cases. destruct (_ || _); [done|].
    destruct (disk (files app) _ content) as [| |so_far]; cbn [fst snd].
    2: { by destruct app. }
    2: { apply Hover. }
    destruct (parse content) as [pages|]; cbn [fst snd]; [|apply Hover].
    rewrite set_pdf_context_cases.
    destruct (truthy _ && (5 <? _)%nat) eqn:E; cbn [fst snd].
    - split; [done|]. split.
      + intros _. cbn [current _current_chunks].
        by apply andb_true_iff in E as [_ E%Nat.ltb_lt].
      + intros _. exists filename, content.
        split; [done|]. split; [done|]. apply lookup_insert_eq.
    - split; [done|]. split; [done|].
      intros _. exists filename, content.
      split; [done|]. split; [done|]. apply lookup_insert_eq. }
  split; [done|].
  destruct Hstep' as (Htext & Hrag & Hpath). clear Hover.
  generalize dependent
    (upload_pdf env disk parse max_file_size app filename content t).1.2.
  intros app' Htext Hrag Hpath info. unfold get_pdf_info.
  destruct (truthy _); cbn [negb]; [|done]. intros [= <-].
  cbn [i_filename i_rag_ready]. split.
  - destruct (Hpath eq_refl) as (name & file & Hn & -> & _).
    exists name. split; [done|]. apply basename_path, sanitize_no_slash.
  - intros Hon%Hrag. by apply Nat.ltb_lt.
Qed.

(** X29. An accepted upload whose file cannot be written ends with
    status 500 and requests nothing. The document loaded before and the
    chat service are untouched. When the file system refuses the file, no
    file is changed either; when the write breaks off, the file under the
    sanitised name holds what was written until then, and no other file is
    changed. *)
Theorem upload_not_saved (app : App) filename content t :
  endswith (lit ".pdf") (lower filename) = true ->
  Z.of_nat (length content) <= max_file_size ->
  (disk (files app) (upload_dir (pdf_service app) ++ [_sanitize_filename filename])
     content = Refused ->
   upload_pdf env disk parse max_file_size app filename content t
   = ((Failure 500, app), t)) /\
  (forall so_far,
     disk (files app) (upload_dir (pdf_service app) ++ [_sanitize_filename filename])
       content = Torn so_far ->
     upload_pdf env disk parse max_file_size app filename content t
     = ((Failure 500,
         {| pdf_service := pdf_service app; current := current app;
            chat_service := chat_service app;
            files := <[upload_dir (pdf_service app) ++ [_sanitize_filename filename]
                       := so_far]> (files app) |}), t)).
Proof.
  intros Hext Hsize. rewrite upload_cases, Hext. cbn [negb orb].
  destruct (Z.gtb_spec (Z.of_nat (length content)) max_file_size); [lia|].
  split.
  - intros ->. by destruct app.
  - by intros so_far ->.
Qed.

End Service.

Lemma upload_unreadable_witness :
  unreadable_upload
  = ((Failure 500,
      {| pdf_service := pdf_service idle_app; current := current idle_app;
         chat_service := chat_service idle_app;
         files := <[upload_dir (pdf_service idle_app)
                    ++ [_sanitize_filename (lit "Report.PDF")] := pdf_bytes]>
                    (files idle_app) |}), []).
Proof.
  apply (upload_unreadable quiet_env keeps unreadable max_size idle_app
           (lit "Report.PDF") pdf_bytes []).
  - reflexivity.
  - by vm_compute.
  - reflexivity.
  - reflexivity.
Defined.

Lemma upload_stored_witness :
  exists text chunks,
    extract_text_from_pdf (pdf_service idle_app) (reads three_pages)
      (files three_page_upload.1.2)
      (upload_dir (pdf_service idle_app) ++ [_sanitize_filename (lit "zebra.pdf")])
    = Some (text, Z.of_nat (length three_pages), chunks) /\
    three_page_upload.1.1
    = Success
        {| u_filename := lit "zebra.pdf";
           u_pages := Z.of_nat (length three_pages);
           u_text_length := Z.of_nat (length text);
           u_message :=
             lit "PDF uploaded and processed successfully. Created "
             ++ of_Z (Z.of_nat (length chunks)) ++ lit " chunks for RAG." |} /\
    current three_page_upload.1.2
    = {| _current_pdf_text := Some text;
         _current_pdf_path :=
           Some (upload_dir (pdf_service idle_app)
                 ++ [_sanitize_filename (lit "zebra.pdf")]);
         _current_chunks := chunks |} /\
    chat_service three_page_upload.1.2
    = (set_pdf_context quiet_env (chat_service idle_app) text (Some chunks)
         (lit "zebra.pdf") []).1 /\
    three_page_upload.2
    = (set_pdf_context quiet_env (chat_service idle_app) text (Some chunks)
         (lit "zebra.pdf") []).2 /\
    pdf_service three_page_upload.1.2 = pdf_service idle_app.
Proof.
  apply (upload_stored quiet_env keeps (reads three_pages) max_size idle_app
           (lit "zebra.pdf") pdf_bytes three_pages []).
  - reflexivity.
  - by vm_compute.
  - reflexivity.
  - reflexivity.
Defined.

Lemma blank_document_witness :
  blank_upload.1.1
  = Success
      {| u_filename := lit "blank.pdf";
         u_pages := Z.of_nat (length blank_pages_only);
         u_text_length := 0;
         u_message :=
           lit "PDF uploaded and processed successfully. Created 0 chunks for RAG." |} /\
  blank_upload.2 = [] /\
  (forall message history t',
     chat_endpoint quiet_env blank_upload.1.2 message history t'
     = (Failure (if valid_message message then 400 else 422), t')) /\
  get_pdf_info blank_upload.1.2 = None.
Proof.
  apply (blank_document quiet_env keeps (reads blank_pages_only) max_size idle_app
           (lit "blank.pdf") pdf_bytes blank_pages_only []).
  - reflexivity.
  - by vm_compute.
  - reflexivity.
  - reflexivity.
  - repeat constructor.
Defined.

Lemma upload_keeps_in_step_witness :
  in_step three_page_upload.1.2 /\
  forall info,
    get_pdf_info three_page_upload.1.2 = Some info ->
    (exists name,
       current_filename (chat_service three_page_upload.1.2) = Some name /\
       i_filename info = _sanitize_filename name) /\
    (use_rag (chat_service three_page_upload.1.2) = true -> i_rag_ready info = true).
Proof.
  apply (upload_keeps_in_step quiet_env keeps (reads three_pages) max_size idle_app
           (lit "zebra.pdf") pdf_bytes []).
  split; [reflexivity|]. split; discriminate.
Defined.

Lemma upload_not_saved_witness :
  (refuses (files idle_app)
     (upload_dir (pdf_service idle_app) ++ [_sanitize_filename (lit "zebra.pdf")])
     pdf_bytes = Refused ->
   refused_upload = ((Failure 500, idle_app), [])) /\
  (forall so_far,
     refuses (files idle_app)
       (upload_dir (pdf_service idle_app) ++ [_sanitize_filename (lit "zebra.pdf")])
       pdf_bytes = Torn so_far ->
     refused_upload
     = ((Failure 500,
         {| pdf_service := pdf_service idle_app; current := current idle_app;
            chat_service := chat_service idle_app;
            files := <[upload_dir (pdf_service idle_app)
                       ++ [_sanitize_filename (lit "zebra.pdf")]
                       := so_far]> (files idle_app) |}), [])).
Proof.
  apply (upload_not_saved quiet_env refuses (reads three_pages) max_size idle_app
           (lit "zebra.pdf") pdf_bytes []).
  - reflexivity.
  - by vm_compute.
Defined.

End Endpoints.
